(** * Column state of the data grid: [useColumns]

    A shallow embedding of the column-state hook (the source file that
    defines [hydrateColumns], [toLookup], [filterVisible], [toMeta],
    [resetState], [getUpdatedColumnState] and [useColumns]) and the
    properties of its derived state.

    Conventions of the embedding
    - a JavaScript object is a finite map from property names to values
      ([gmap string val]); an absent key reads as [undefined];
    - an array is a list of its elements;
    - the numbers held by a column are integers (pixel widths, indices);
      the numbers of the layout metadata are the integer-valued doubles,
      the two infinities and [NaN], and their sum is the IEEE sum: the
      exact sum rounded to the nearest double, ties to even;
    - a [forEach] loop is a left-to-right fold that threads what the loop
      body mutates. *)

From stdpp Require Import base option list gmap strings pretty.

Open Scope Z_scope.

(** ** JavaScript values and objects *)

(** The values a key of a column definition can hold: the primitives, and
    functions and objects (renderers, comparators), which the hook only
    copies and which are known by their identity. *)
Inductive val :=
  | VUndefined
  | VNull
  | VBool (b : bool)
  | VNum (n : Z)
  | VStr (s : string)
  | VObj (ref : positive).

#[global] Instance val_eq_dec : EqDecision val.
Proof. solve_decision. Defined.

(** [a === b]: equal primitives, or the same function or object. *)
Definition strict_eq (a b : val) : bool := bool_decide (a = b).

(** [v == null], true of [null] and [undefined] only. *)
Definition is_nullish (v : val) : bool :=
  match v with
  | VUndefined | VNull => true
  | _ => false
  end.

(** Truthiness, as tested by [!v] and [if (v)]. *)
Definition truthy (v : val) : bool :=
  match v with
  | VUndefined | VNull => false
  | VBool b => b
  | VNum n => negb (n =? 0)
  | VStr s => negb (String.eqb s "")
  | VObj _ => true
  end.

(** The property key a value denotes in [obj[v]]; integers print in
    decimal, and a plain object prints as "[object Object]" (the field
    identifier is declared a string, so only the first cases arise for
    well-typed columns). *)
Definition to_key (v : val) : string :=
  match v with
  | VUndefined => "undefined"
  | VNull => "null"
  | VBool true => "true"
  | VBool false => "false"
  | VNum n => pretty n
  | VStr s => s
  | VObj _ => "[object Object]"
  end.

(** A column definition (the [ColDef] interface) as a plain object. *)
Abbreviation ColDef := (gmap string val).

(** [c.k], [undefined] when the key is absent. *)
Definition get (c : ColDef) (k : string) : val := default VUndefined (c !! k).

Definition field (c : ColDef) : val := get c "field".
Definition hide (c : ColDef) : val := get c "hide".
Definition sortDirection (c : ColDef) : val := get c "sortDirection".
Definition sortIndex (c : ColDef) : val := get c "sortIndex".

(** The object spread [{ ...a, ...b }]: the keys of both, [b] winning. *)
Definition spread (a b : ColDef) : ColDef := b ∪ a.

(** [o.k = v] on an object. *)
Definition assign (k : string) (v : val) (o : ColDef) : ColDef := <[k := v]> o.

(** ** Numbers of the layout metadata *)

(** A number of the metadata: a double whose value is an integer, an
    infinity, or [NaN]. *)
Inductive num :=
  | Num (z : Z)
  | Inf (negative : bool)
  | NaN.

#[global] Instance num_eq_dec : EqDecision num.
Proof. solve_decision. Defined.

(** The double nearest to an integer that is not negative, as an integer.
    Below 2^53 every integer is a double; from there on the doubles are
    the multiples of [2^k] that have 53 significant bits, and a tie goes
    to the even one. *)
Definition round_nat (z : Z) : Z :=
  if decide (z < 2 ^ 53) then z
  else
    let k := Z.log2 z - 52 in
    let q := z / 2 ^ k in
    let r := z mod 2 ^ k in
    let half := 2 ^ (k - 1) in
    let q' := if decide (r < half) then q
              else if decide (half < r) then q + 1
              else if Z.even q then q else q + 1 in
    q' * 2 ^ k.

(** The double nearest to an integer; what rounds to 2^1024 or beyond is
    an infinity. *)
Definition round_double (z : Z) : num :=
  let m := round_nat (Z.abs z) in
  if decide (m < 2 ^ 1024) then Num (Z.sgn z * m) else Inf (bool_decide (z < 0)).

(** [a + b] on numbers. *)
Definition num_add (a b : num) : num :=
  match a, b with
  | NaN, _ | _, NaN => NaN
  | Inf s, Inf s' => if bool_decide (s = s') then Inf s else NaN
  | Inf s, Num _ => Inf s
  | Num _, Inf s => Inf s
  | Num x, Num y => round_double (x + y)
  end.

(** The number that [+] makes of its right operand when the left one is a
    number: [undefined] gives [NaN], [null] gives 0, a boolean 0 or 1. With
    a string or an object [+] concatenates strings instead; the interface
    declares [width?: number], and the statements on sums leave such widths
    aside ([typedWidth] below). *)
Definition to_number (v : val) : num :=
  match v with
  | VUndefined => NaN
  | VNull => Num 0
  | VBool b => Num (if b then 1 else 0)
  | VNum n => round_double n
  | VStr _ | VObj _ => NaN
  end.

(** [c.width!] as the operand of [+]. *)
Definition width (c : ColDef) : num := to_number (get c "width").

(** ** Arrays *)

(** [arr.forEach((x, idx) => ...)], threading the state [S] the body
    mutates. *)
Fixpoint forEachFrom {A St : Type} (body : A → nat → St → St) (idx : nat)
    (arr : list A) (s : St) : St :=
  match arr with
  | [] => s
  | x :: rest => forEachFrom body (S idx) rest (body x idx s)
  end.

Definition forEach {A St : Type} (body : A → nat → St → St) (arr : list A) (s : St) : St :=
  forEachFrom body 0%nat arr s.

(** [arr.findIndex(p)]: the first index whose element satisfies [p], [-1]
    when there is none. *)
Definition findIndex {A : Type} (p : A → bool) (arr : list A) : Z :=
  match list_find (λ x, Is_true (p x)) arr with
  | Some (i, _) => Z.of_nat i
  | None => -1
  end.

(** [arr[i]] for an index returned by [findIndex]; [None] stands for
    [undefined]. The index [-1] names no element; it reads the property
    "-1" of the array object, which the arrays of a column state do not
    have (see [patchLoop]). *)
Definition at_index {A : Type} (arr : list A) (i : Z) : option A :=
  if decide (0 ≤ i) then arr !! Z.to_nat i else None.

(** [arr[i] = x] for an index returned by [findIndex]. In range the write
    replaces the element. For [-1] it sets the property "-1" of the array
    object, which is no element: [set_index] gives the elements after the
    write, [set_minus_one] the property "-1" after it. A copy [[...arr]]
    takes the elements and leaves the property behind. *)
Definition set_index {A : Type} (arr : list A) (i : Z) (x : A) : list A :=
  if decide (0 ≤ i) then <[Z.to_nat i := x]> arr else arr.

Definition set_minus_one {A : Type} (minusOne : option A) (i : Z) (x : A) : option A :=
  if decide (0 ≤ i) then minusOne else Some x.

(** ** Derived state *)

Record ColumnsMeta := {
  totalWidth : num;
  positions : list num
}.

Record InternalColumns := {
  all : list ColDef;
  visible : list ColDef;
  meta : ColumnsMeta;
  lookup : gmap string ColDef;
  hasColumns : bool;
  hasVisibleColumns : bool
}.

(** The lookup is a plain object used as a map; the finite map holds the
    columns filed in it, each under the key its field identifier denotes.
    What the object inherits is not an entry: a read of a key under which
    nothing is filed gives [None] here, where the code finds [undefined]
    or, under the keys of [inheritedKeys], what every object inherits. *)
Definition toLookup (allColumns : list ColDef) : gmap string ColDef :=
  fold_left (λ lookup col, <[to_key (field col) := col]> lookup) allColumns ∅.

Definition isVisible (c : ColDef) : bool :=
  negb (is_nullish (field c)) && negb (truthy (hide c)).

Definition filterVisible (allColumns : list ColDef) : list ColDef :=
  filter (λ c, Is_true (isVisible c)) allColumns.

(** The reducer of [toMeta]: pushes the running total, then adds the width. *)
Definition toMeta_step (acc : num * list num) (curCol : ColDef) : num * list num :=
  let '(totalW, positions) := acc in
  (num_add totalW (width curCol), positions ++ [totalW]).

Definition toMeta (visibleColumns : list ColDef) : ColumnsMeta :=
  let '(totalWidth, positions) := fold_left toMeta_step visibleColumns (Num 0, []) in
  {| totalWidth := totalWidth; positions := positions |}.

(** ** Inputs from the host *)

Record GridOptions := {
  checkboxSelection : bool
}.

(** One entry of a sort model. *)
Record SortItem := {
  colId : string;
  sort : val
}.

Abbreviation SortModel := (list SortItem).

(** What the hook reads of [apiRef.current]: whether the [getSortModel]
    accessor is there and, if so, the model it returns. [apiRef.current]
    itself is an [option GridApi], [None] while the host has not set it. *)
Record GridApi := {
  getSortModel : option SortModel
}.

(** ** Hydration *)

(** The elements of [arr.filter(p)] as references into [arr]: the filtered
    array holds the same objects as [arr], and the objects of [arr] are
    pairwise distinct, so an object is named by its position in [arr]. *)
Fixpoint refsFrom (p : ColDef → bool) (j : nat) (arr : list ColDef) : list nat :=
  match arr with
  | [] => []
  | c :: rest => if p c then j :: refsFrom p (S j) rest else refsFrom p (S j) rest
  end.

Definition filterRefs (p : ColDef → bool) (arr : list ColDef) : list nat :=
  refsFrom p 0%nat arr.

(** Body of the first loop of [hydrateColumns]; [r] is the object [c] of the
    source, read and written through [mappedCols]. *)
Definition setMissingSortIndex (r : nat) (idx : nat) (mappedCols : list ColDef) : list ColDef :=
  match mappedCols !! r with
  | Some c =>
      if is_nullish (sortIndex c)
      then <[r := assign "sortIndex" (VNum (Z.of_nat idx + 1)) c]> mappedCols
      else mappedCols
  | None => mappedCols
  end.

(** Body of the second loop; [len] is [sortedCols.length]. *)
Definition applySortItem (len : nat) (c : SortItem) (idx : nat) (mappedCols : list ColDef) : list ColDef :=
  match list_find (λ mc, Is_true (strict_eq (field mc) (VStr (colId c)))) mappedCols with
  | Some (r, col) =>
      let col := assign "sortDirection" (sort c) col in
      let col := assign "sortIndex"
                   (if bool_decide (1 < len)%nat then VNum (Z.of_nat idx + 1) else VUndefined) col in
      <[r := col]> mappedCols
  | None => mappedCols
  end.

Section Columns.

(** [getColDef] is imported from the models of the grid; it maps the [type]
    of a column to the default definition of that type. *)
Variable getColDef : val → ColDef.

(** Lines 21 to 24: the defaults merged under each column, and the checkbox
    column in front when the option asks for it. [checkboxObj] is the
    content of the module-level object [checkboxSelectionColDef] at the
    time of the call. *)
Definition mapColumns (checkboxObj : ColDef) (columns : list ColDef)
    (options : GridOptions) : list ColDef :=
  let mappedCols := map (λ c, spread (getColDef (get c "type")) c) columns in
  if checkboxSelection options then checkboxObj :: mappedCols else mappedCols.

(** Lines 25 to 33. *)
Definition assignSortIndexes (apiRef : option GridApi) (mappedCols : list ColDef) : list ColDef :=
  let sortedCols := filterRefs (λ c, negb (is_nullish (sortDirection c))) mappedCols in
  if bool_decide (0 < length sortedCols)%nat && bool_decide (is_Some apiRef)
  then forEach setMissingSortIndex sortedCols mappedCols
  else mappedCols.

(** Lines 35 to 44. *)
Definition applySortModel (apiRef : option GridApi) (mappedCols : list ColDef) : list ColDef :=
  match apiRef with
  | Some api =>
      match getSortModel api with
      | Some sortedCols => forEach (applySortItem (length sortedCols)) sortedCols mappedCols
      | None => mappedCols
      end
  | None => mappedCols
  end.

Definition hydrateColumns (checkboxObj : ColDef) (columns : list ColDef)
    (options : GridOptions) (apiRef : option GridApi) : list ColDef :=
  let mappedCols := mapColumns checkboxObj columns options in
  let mappedCols := assignSortIndexes apiRef mappedCols in
  let mappedCols := applySortModel apiRef mappedCols in
  mappedCols.

(** The content of [checkboxSelectionColDef] after a call of
    [hydrateColumns]: when the option is on, the head of the result is
    that very object, so what the two loops wrote into it stays. *)
Definition checkboxAfterHydrate (checkboxObj : ColDef) (columns : list ColDef)
    (options : GridOptions) (apiRef : option GridApi) : ColDef :=
  if checkboxSelection options
  then default checkboxObj (head (hydrateColumns checkboxObj columns options apiRef))
  else checkboxObj.

Definition resetState (checkboxObj : ColDef) (columns : list ColDef)
    (options : GridOptions) (apiRef : option GridApi) : InternalColumns :=
  let all := hydrateColumns checkboxObj columns options apiRef in
  let visible := filterVisible all in
  let meta := toMeta visible in
  let lookup := toLookup all in
  {| all := all;
     visible := visible;
     meta := meta;
     lookup := lookup;
     hasColumns := bool_decide (0 < length all)%nat;
     hasVisibleColumns := bool_decide (0 < length visible)%nat |}.

End Columns.

(** ** Patch updates *)

(** What the loop of [getUpdatedColumnState] has in hand. [newState] starts
    as a shallow copy of [state], so in the first round [newState.all] and
    [newState.lookup] are still the caller's array and object, and the two
    writes of that round land in them ([shared]); each round ends with
    fresh copies. [state_all], [state_minus_one] and [state_lookup] are the
    elements of the caller's array, its property "-1" and the caller's
    lookup. The arrays that reach the loop are built by [hydrateColumns] or
    by a copy, and carry no property "-1". *)
Record patchLoop := {
  new_all : list ColDef;
  new_lookup : gmap string ColDef;
  shared : bool;
  state_all : list ColDef;
  state_minus_one : option ColDef;
  state_lookup : gmap string ColDef
}.

Definition applyColumnUpdate (newColumn : ColDef) (_ : nat) (l : patchLoop) : patchLoop :=
  let index := findIndex (λ c, strict_eq (field c) (field newColumn)) (new_all l) in
  let columnUpdated := spread (default ∅ (at_index (new_all l) index)) newColumn in
  let all' := set_index (new_all l) index columnUpdated in
  let lookup' := <[to_key (field newColumn) := columnUpdated]> (new_lookup l) in
  {| new_all := all';
     new_lookup := lookup';
     shared := false;
     state_all := if shared l then all' else state_all l;
     state_minus_one := if shared l
                        then set_minus_one (state_minus_one l) index columnUpdated
                        else state_minus_one l;
     state_lookup := if shared l then lookup' else state_lookup l |}.

Definition runColumnUpdates (state : InternalColumns) (columnUpdates : list ColDef) : patchLoop :=
  forEach applyColumnUpdate columnUpdates
    {| new_all := all state; new_lookup := lookup state; shared := true;
       state_all := all state; state_minus_one := None; state_lookup := lookup state |}.

Definition getUpdatedColumnState (state : InternalColumns) (columnUpdates : list ColDef) : InternalColumns :=
  let newState := runColumnUpdates state columnUpdates in
  let visible := filterVisible (new_all newState) in
  let meta := toMeta visible in
  {| all := new_all newState;
     visible := visible;
     meta := meta;
     lookup := new_lookup newState;
     hasColumns := bool_decide (0 < length (new_all newState))%nat;
     hasVisibleColumns := bool_decide (0 < length visible)%nat |}.

(** The object passed as [state], as the call leaves it: its fields, and
    the property "-1" of its array [all]. *)
Record passedState := {
  passed : InternalColumns;
  passedMinusOne : option ColDef
}.

Definition stateAfterUpdate (state : InternalColumns) (columnUpdates : list ColDef) : passedState :=
  let newState := runColumnUpdates state columnUpdates in
  {| passed := {| all := state_all newState;
                  visible := visible state;
                  meta := meta state;
                  lookup := state_lookup newState;
                  hasColumns := hasColumns state;
                  hasVisibleColumns := hasVisibleColumns state |};
     passedMinusOne := state_minus_one newState |}.

(** ** The hook *)

(** What [useColumns] keeps between calls, and what it has done to the
    outside: the React state, the two refs, the module-level checkbox
    column object, the payloads sent with [COLUMNS_UPDATED] (oldest first),
    the number of calls of [setInternalColumns] and of [rafUpdate]. *)
Record hook := {
  internalColumns : InternalColumns;
  stateRef : InternalColumns;
  sortedColFieldsRef : list string;
  checkboxSelectionColDef : ColDef;
  emitted : list (list ColDef);
  setStateCalls : nat;
  rafUpdates : nat
}.

Definition updateState (apiRef : option GridApi) (newState : InternalColumns) (emit : bool)
    (h : hook) : hook :=
  {| internalColumns := newState;
     stateRef := newState;
     sortedColFieldsRef := sortedColFieldsRef h;
     checkboxSelectionColDef := checkboxSelectionColDef h;
     emitted := if bool_decide (is_Some apiRef) && emit
                then emitted h ++ [all newState] else emitted h;
     setStateCalls := S (setStateCalls h);
     rafUpdates := rafUpdates h |}.

Definition setCheckbox (checkboxObj : ColDef) (h : hook) : hook :=
  {| internalColumns := internalColumns h;
     stateRef := stateRef h;
     sortedColFieldsRef := sortedColFieldsRef h;
     checkboxSelectionColDef := checkboxObj;
     emitted := emitted h;
     setStateCalls := setStateCalls h;
     rafUpdates := rafUpdates h |}.

(** [stateRef.current.lookup[field]]: the column filed under the key,
    [None] when none is (see [toLookup]). *)
Definition getColumnFromField (fld : string) (h : hook) : option ColDef :=
  lookup (stateRef h) !! fld.

Definition getAllColumns (h : hook) : list ColDef := all (stateRef h).
Definition getColumnsMeta (h : hook) : ColumnsMeta := meta (stateRef h).
Definition getVisibleColumns (h : hook) : list ColDef := visible (stateRef h).

Definition getColumnIndex (fld : string) (h : hook) : Z :=
  findIndex (λ c, strict_eq (field c) (VStr fld)) (visible (stateRef h)).

(** [None] is the [undefined] of an array read that finds no element. *)
Definition getColumnPosition (fld : string) (h : hook) : option num :=
  let index := getColumnIndex fld h in
  at_index (positions (meta (stateRef h))) index.

Definition updateColumn (apiRef : option GridApi) (col : ColDef) (h : hook) : hook :=
  let newState := getUpdatedColumnState (stateRef h) [col] in
  updateState apiRef newState false h.

Definition updateColumns (apiRef : option GridApi) (cols : list ColDef) (h : hook) : hook :=
  let newState := getUpdatedColumnState (stateRef h) cols in
  updateState apiRef newState false h.

(** The object literals pushed by [onSortedColumns]; all three keys are
    present, [sortIndex] possibly with the value [undefined]. *)
Definition sortPatch (fld : string) (dir idx : val) : ColDef :=
  {[ "field" := VStr fld; "sortDirection" := dir; "sortIndex" := idx ]}.

Definition pushClearPatch (fld : string) (_ : nat) (updatedCols : list ColDef) : list ColDef :=
  updatedCols ++ [sortPatch fld VNull VUndefined].

(** Body of the loop over the sort model; the state is
    [(sortedColFieldsRef.current, updatedCols)]. *)
Definition pushSortPatch (len : nat) (model : SortItem) (index : nat)
    (s : list string * list ColDef) : list string * list ColDef :=
  let '(fields, updatedCols) := s in
  let fields := fields ++ [colId model] in
  let sortIndex := if bool_decide (1 < len)%nat then VNum (Z.of_nat index + 1) else VUndefined in
  (fields, updatedCols ++ [sortPatch (colId model) (sort model) sortIndex]).

(** The patches [onSortedColumns] builds and the fields it remembers. *)
Definition sortUpdates (previous : list string) (sortModel : SortModel) : list string * list ColDef :=
  let updatedCols := forEach pushClearPatch previous [] in
  forEach (pushSortPatch (length sortModel)) sortModel ([], updatedCols).

Definition rafUpdate (h : hook) : hook :=
  {| internalColumns := internalColumns h;
     stateRef := stateRef h;
     sortedColFieldsRef := sortedColFieldsRef h;
     checkboxSelectionColDef := checkboxSelectionColDef h;
     emitted := emitted h;
     setStateCalls := setStateCalls h;
     rafUpdates := S (rafUpdates h) |}.

Definition setSortedColFields (fields : list string) (h : hook) : hook :=
  {| internalColumns := internalColumns h;
     stateRef := stateRef h;
     sortedColFieldsRef := fields;
     checkboxSelectionColDef := checkboxSelectionColDef h;
     emitted := emitted h;
     setStateCalls := setStateCalls h;
     rafUpdates := rafUpdates h |}.

Definition onSortedColumns (apiRef : option GridApi) (sortModel : SortModel) (h : hook) : hook :=
  let '(fields, updatedCols) := sortUpdates (sortedColFieldsRef h) sortModel in
  let h := setSortedColFields fields h in
  let h := if bool_decide (0 < length updatedCols)%nat
           then updateColumns apiRef updatedCols h else h in
  rafUpdate h.

Section Hook.

Variable getColDef : val → ColDef.

(** The [useMemo] of a render whose [columns], [options] or [apiRef]
    changed: [resetState] runs, and of what it does only the writes into
    the checkbox column object outlive the render (the value itself is
    used by the first render alone, see [mount]). The hook record holds
    the committed state by value: where that state still has the checkbox
    column object as its first column, the two sort keys written here show
    in it as well, which the record leaves to the next [columnsEffect]; the
    refs, the events emitted and the layout do not depend on them. *)
Definition renderMemo (columns : list ColDef) (options : GridOptions)
    (apiRef : option GridApi) (h : hook) : hook :=
  setCheckbox (checkboxAfterHydrate getColDef (checkboxSelectionColDef h) columns options apiRef) h.

(** The first render: the memoised state initialises the React state and
    [stateRef]; nothing is emitted. *)
Definition mount (checkboxObj : ColDef) (columns : list ColDef) (options : GridOptions)
    (apiRef : option GridApi) : hook :=
  let state := resetState getColDef checkboxObj columns options apiRef in
  {| internalColumns := state;
     stateRef := state;
     sortedColFieldsRef := [];
     checkboxSelectionColDef := checkboxAfterHydrate getColDef checkboxObj columns options apiRef;
     emitted := [];
     setStateCalls := 0;
     rafUpdates := 0 |}.

(** The effect on [[columns, options]]. *)
Definition columnsEffect (columns : list ColDef) (options : GridOptions)
    (apiRef : option GridApi) (h : hook) : hook :=
  let newState := resetState getColDef (checkboxSelectionColDef h) columns options apiRef in
  let h := setCheckbox (checkboxAfterHydrate getColDef (checkboxSelectionColDef h) columns options apiRef) h in
  updateState apiRef newState true h.

(** What can happen to a mounted hook. [apiRef.current] belongs to the
    host, so every event carries its content at that time. *)
Inductive event :=
  | Render (columns : list ColDef) (options : GridOptions) (apiRef : option GridApi)
  | ColumnsEffect (columns : list ColDef) (options : GridOptions) (apiRef : option GridApi)
  | UpdateColumn (apiRef : option GridApi) (col : ColDef)
  | UpdateColumns (apiRef : option GridApi) (cols : list ColDef)
  | PostSort (apiRef : option GridApi) (sortModel : SortModel).

Definition step (h : hook) (e : event) : hook :=
  match e with
  | Render columns options apiRef => renderMemo columns options apiRef h
  | ColumnsEffect columns options apiRef => columnsEffect columns options apiRef h
  | UpdateColumn apiRef col => updateColumn apiRef col h
  | UpdateColumns apiRef cols => updateColumns apiRef cols h
  | PostSort apiRef sortModel => onSortedColumns apiRef sortModel h
  end.

Definition run (h : hook) (es : list event) : hook := fold_left step es h.

End Hook.

(** ** Reference notions used by the statements *)

(** The sum of the widths of a list of columns, added from left to right
    starting from 0. *)
Definition sumWidths (cols : list ColDef) : num :=
  fold_left (λ acc c, num_add acc (width c)) cols (Num 0).

(** The exact sum of a list of integers. *)
Definition sumZ (ws : list Z) : Z := foldr Z.add 0 ws.

(** The integers that are doubles together with their neighbours: all
    integers strictly between -2^53 and 2^53. *)
Definition safeInteger (z : Z) : Prop := - 2 ^ 53 < z < 2 ^ 53.

(** A width of the declared type, [number] or missing, or one that [+]
    converts to a number ([null], a boolean). *)
Definition typedWidth (c : ColDef) : Prop :=
  match get c "width" with
  | VStr _ | VObj _ => False
  | _ => True
  end.

#[global] Instance typedWidth_dec c : Decision (typedWidth c).
Proof. unfold typedWidth. destruct (get c "width"); apply _. Defined.

(** [a ≤ b] on numbers: [NaN] compares with nothing, minus infinity is
    below and plus infinity above every other number. *)
Definition num_le (a b : num) : Prop :=
  match a, b with
  | Num x, Num y => x ≤ y
  | Num _, Inf negative => negative = false
  | Inf negative, Num _ => negative = true
  | Inf negative, Inf negative' => negative = true ∨ negative' = false
  | _, _ => False
  end.

(** The doubles among the integers that are not negative. *)
Definition representable (x : Z) : Prop :=
  x < 2 ^ 53 ∨ x mod 2 ^ (Z.log2 x - 52) = 0.

(** Widths beyond the exact range: 2^53 followed by two widths of 1; a
    width of 2^1023, half of what overflows; and a width that is [null]. *)
Definition colHuge : ColDef := {[ "field" := VStr "h"; "width" := VNum (2 ^ 53) ]}.
Definition colOne : ColDef := {[ "field" := VStr "o"; "width" := VNum 1 ]}.
Definition colTwo : ColDef := {[ "field" := VStr "t"; "width" := VNum 1 ]}.
Definition colMax : ColDef := {[ "field" := VStr "m"; "width" := VNum (2 ^ 1023) ]}.
Definition colNull : ColDef := {[ "field" := VStr "u"; "width" := VNull ]}.

(** The columns of the example of the specification. *)
Definition colA : ColDef := {[ "field" := VStr "a"; "width" := VNum 100 ]}.
Definition colB : ColDef := {[ "field" := VStr "b"; "width" := VNum 50; "hide" := VBool true ]}.
Definition colC : ColDef := {[ "field" := VStr "c"; "width" := VNum 80 ]}.

(** The key under which a column is filed in the lookup. *)
Definition keyOf (c : ColDef) : string := to_key (field c).

(** The keys that every object inherits: the properties of
    [Object.prototype]. A read under one of them finds the inherited value
    when nothing is filed there, and a write under "__proto__" sets the
    prototype of the object. *)
Definition inheritedKeys : list string :=
  [ "constructor"; "hasOwnProperty"; "isPrototypeOf"; "propertyIsEnumerable";
    "toLocaleString"; "toString"; "valueOf"; "__proto__";
    "__defineGetter__"; "__defineSetter__"; "__lookupGetter__"; "__lookupSetter__" ].

(** A patch names a column of [cols]: some column has its field
    identifier. *)
Definition present (cols : list ColDef) (newColumn : ColDef) : Prop :=
  ∃ c, c ∈ cols ∧ field c = field newColumn.

(** A column counts as visible: its field identifier is neither [null] nor
    [undefined], and it is not marked hidden. *)
Definition shown (c : ColDef) : Prop :=
  field c ≠ VNull ∧ field c ≠ VUndefined ∧ truthy (hide c) = false.

#[global] Instance shown_dec c : Decision (shown c).
Proof. unfold shown. apply _. Defined.

(** A column state is consistent: the visible columns are the shown columns
    of [all] in their order, the metadata is the total and the prefix sums
    of the visible widths, and the lookup files under each key the last
    column of [all] with that key. *)
Definition consistent (s : InternalColumns) : Prop :=
  visible s = filter shown (all s)
  ∧ totalWidth (meta s) = sumWidths (visible s)
  ∧ positions (meta s)
    = map (λ i, sumWidths (take i (visible s))) (seq 0 (length (visible s)))
  ∧ ∀ k, lookup s !! k = last (filter (λ c, keyOf c = k) (all s)).

(** Modelled from the spec: [getColDef], imported from the models of the
    grid, gives the type-indexed default definition; this sample gives
    every type the same default width. The properties below hold for any
    [getColDef]; the sample stands for it in the examples. *)
Definition sampleColDef (type : val) : ColDef := {[ "width" := VNum 100 ]}.

(** Modelled from the spec: [checkboxSelectionColDef], imported from the
    models of the grid, is a fixed checkbox-selection column definition
    whose field identifier is reserved. The properties below hold for any
    content of it; the sample stands for it in the examples. *)
Definition checkboxColumn : ColDef := {[ "field" := VStr "__check__"; "width" := VNum 80 ]}.

Definition checkboxOff : GridOptions := {| checkboxSelection := false |}.
Definition checkboxOn : GridOptions := {| checkboxSelection := true |}.

(** The state of the columns a, b (hidden), c. *)
Definition stateABC : InternalColumns :=
  resetState sampleColDef checkboxColumn [colA; colB; colC] checkboxOff None.

(** Patches: show b again; a column that does not exist. *)
Definition showB : ColDef := {[ "field" := VStr "b"; "hide" := VBool false ]}.
Definition patchZ : ColDef := {[ "field" := VStr "z"; "width" := VNum 10 ]}.

(** The patches a caller is expected to send: the columns of the state have
    pairwise distinct keys, and every patch names one of them. *)
Definition validUpdates (state : InternalColumns) (columnUpdates : list ColDef) : Prop :=
  NoDup (keyOf <$> all state) ∧ Forall (present (all state)) columnUpdates.

Definition validEvent (h : hook) (e : event) : Prop :=
  match e with
  | Render _ _ _ => True
  | ColumnsEffect _ _ _ => True
  | UpdateColumn _ col => validUpdates (stateRef h) [col]
  | UpdateColumns _ cols => validUpdates (stateRef h) cols
  | PostSort _ sortModel =>
      validUpdates (stateRef h) (sortUpdates (sortedColFieldsRef h) sortModel).2
  end.

(** The hooks one gets from a mount by events with valid patches. *)
Inductive reachable (getColDef : val → ColDef) : hook → Prop :=
  | reachable_mount checkboxObj columns options apiRef :
      reachable getColDef (mount getColDef checkboxObj columns options apiRef)
  | reachable_step h e :
      reachable getColDef h → validEvent h e → reachable getColDef (step getColDef h e).

(** Two columns filed under one key, and a patch for that key. *)
Definition colA' : ColDef := {[ "field" := VStr "a"; "width" := VNum 30 ]}.
Definition stateAA : InternalColumns :=
  resetState sampleColDef checkboxColumn [colA; colA'] checkboxOff None.
Definition widenA : ColDef := {[ "field" := VStr "a"; "width" := VNum 120 ]}.

(** The events that send [COLUMNS_UPDATED]. *)
Definition emits (e : event) : bool :=
  match e with
  | ColumnsEffect _ _ (Some _) => true
  | _ => false
  end.

(** A column that carries a sort direction. *)
Definition sorted (c : ColDef) : bool := negb (is_nullish (sortDirection c)).

(** How many of the columns before position [j] carry a sort direction. *)
Definition sortedBefore (cols : list ColDef) (j : nat) : nat :=
  length (filter (λ c, Is_true (sorted c)) (take j cols)).

(** The column at position [j] is the first with its field identifier. *)
Definition firstOfField (cols : list ColDef) (j : nat) (c : ColDef) : Prop :=
  ∀ j' c', (j' < j)%nat → cols !! j' = Some c' → field c' ≠ field c.

(** Entry [idx] of the sort model names the field of [c], and no later
    entry does. *)
Definition lastEntryFor (model : SortModel) (idx : nat) (e : SortItem) (c : ColDef) : Prop :=
  model !! idx = Some e
  ∧ field c = VStr (colId e)
  ∧ ∀ idx' e', (idx < idx')%nat → model !! idx' = Some e' → field c ≠ VStr (colId e').

(** No entry of the sort model names the field of [c]. *)
Definition unmatched (model : SortModel) (c : ColDef) : Prop :=
  ∀ e, e ∈ model → field c ≠ VStr (colId e).

(** The first loop of [hydrateColumns], read column by column: [idx] counts
    the sorted columns met so far. *)
Fixpoint withSortIndexes (idx : nat) (cols : list ColDef) : list ColDef :=
  match cols with
  | [] => []
  | c :: rest =>
      if sorted c
      then (if is_nullish (sortIndex c)
            then assign "sortIndex" (VNum (Z.of_nat idx + 1)) c else c)
           :: withSortIndexes (S idx) rest
      else c :: withSortIndexes idx rest
  end.

(** What one entry of the sort model does to a column it finds. *)
Definition annotateWith (len : nat) (e : SortItem) (idx : nat) (col : ColDef) : ColDef :=
  assign "sortIndex"
    (if bool_decide (1 < len)%nat then VNum (Z.of_nat idx + 1) else VUndefined)
    (assign "sortDirection" (sort e) col).

(** The second loop, read for one column that the entries naming its field
    find. *)
Definition annotate (len : nat) (model : SortModel) (idx : nat) (c : ColDef) : ColDef :=
  forEachFrom (λ e idx c,
    if strict_eq (field c) (VStr (colId e)) then annotateWith len e idx c else c)
    idx model c.

(** The first position of a field identifier in a list of them, and the
    test that position [j] of [cols] is the first with the field of [c]. *)
Definition firstIndex (fields : list val) (v : val) : option nat :=
  fst <$> list_find (λ f, f = v) fields.

Definition firstAt (cols : list ColDef) (j : nat) (c : ColDef) : bool :=
  bool_decide (firstIndex (field <$> cols) (field c) = Some j).

(** What the first loop makes of the column [c] at position [j]. *)
Definition indexed (cols : list ColDef) (j : nat) (c : ColDef) : ColDef :=
  if sorted c && is_nullish (sortIndex c)
  then assign "sortIndex" (VNum (Z.of_nat (sortedBefore cols j) + 1)) c
  else c.

(** A column with a sort direction and no sort index. *)
Definition sortedA : ColDef := {[ "field" := VStr "a"; "sortDirection" := VStr "asc" ]}.

(** A host handle whose sort model sorts a, descending. *)
Definition apiSortA : GridApi :=
  {| getSortModel := Some [ {| colId := "a"; sort := VStr "desc" |} ] |}.

(** The patch that takes the sort annotation off a field, and the columns
    that have none. *)
Definition clearPatch (fld : string) : ColDef := sortPatch fld VNull VUndefined.


(** The patch that entry [index] of a sort model of [len] entries sets. *)
Definition setPatch (len : nat) (index : nat) (e : SortItem) : ColDef :=
  sortPatch (colId e) (sort e)
    (if bool_decide (1 < len)%nat then VNum (Z.of_nat index + 1) else VUndefined).


(** A sort model of two entries, and a hook on the columns a, b, c. *)
Definition sortAC : SortModel :=
  [ {| colId := "a"; sort := VStr "asc" |}; {| colId := "c"; sort := VStr "desc" |} ].
Definition hookABC : hook :=
  mount sampleColDef checkboxColumn [colA; colB; colC] checkboxOff None.

(** A column whose width is a number that is not negative. *)
Definition nonnegWidth (c : ColDef) : Prop := ∃ w, width c = Num w ∧ 0 ≤ w.

(** A column without a width. *)
Definition colNoWidth : ColDef := {[ "field" := VStr "n" ]}.

(** The column [c] has every key of the patch [q], with the value of [q]. *)
Definition carries (q c : ColDef) : Prop := ∀ k v, q !! k = Some v → c !! k = Some v.

(** In the hands of the loop of [getUpdatedColumnState], the patch [q] is in
    force: the lookup entry under its key carries it, and so does the first
    column of the array with its field, if there is one. *)
Definition patchedIn (q : ColDef) (l : patchLoop) : Prop :=
  (∃ c, new_lookup l !! to_key (field q) = Some c ∧ carries q c)
  ∧ ∀ i c, new_all l !! i = Some c → field c = field q →
      firstOfField (new_all l) i c → carries q c.

(** Patches for the examples: a new width for c, and hiding a. *)
Definition widenC : ColDef := {[ "field" := VStr "c"; "width" := VNum 90 ]}.
Definition hideA : ColDef := {[ "field" := VStr "a"; "hide" := VBool true ]}.

(** The hook on a, b, c after a sort by a, and after the input then
    changed to b, c. *)
Definition sortA : SortModel := [ {| colId := "a"; sort := VStr "asc" |} ].
Definition hookSortedA : hook := onSortedColumns None sortA hookABC.
Definition hookRemovedA : hook :=
  columnsEffect sampleColDef [colB; colC] checkboxOff None hookSortedA.

(** A sorted column that leaves the input: the host, whose sort model
    sorts a, notifies the sort; the input changes to b, c; the host, whose
    sort model is now empty, notifies the sort. *)
Definition apiAscA : GridApi := {| getSortModel := Some sortA |}.
Definition apiUnsorted : GridApi := {| getSortModel := Some [] |}.
Definition sortThenRemove : list event :=
  [ PostSort (Some apiAscA) sortA;
    ColumnsEffect [colB; colC] checkboxOff (Some apiAscA);
    PostSort (Some apiUnsorted) [] ].

(** A second column with a sort direction and no sort index, and a host
    handle without the [getSortModel] accessor. *)
Definition sortedB : ColDef := {[ "field" := VStr "b"; "sortDirection" := VStr "desc" ]}.
Definition apiNoModel : GridApi := {| getSortModel := None |}.

(** A host handle whose sort model sorts the checkbox column. *)
Definition apiSortCheck : GridApi :=
  {| getSortModel := Some [ {| colId := "__check__"; sort := VStr "asc" |} ] |}.

(** The events that are sort notifications, and the sort model of the last
    one in a sequence of events. *)
Definition isPostSort (e : event) : bool :=
  match e with
  | PostSort _ _ => true
  | _ => false
  end.

Definition lastSortModel (es : list event) : option SortModel :=
  match last (filter (λ e, Is_true (isPostSort e)) es) with
  | Some (PostSort _ sortModel) => Some sortModel
  | _ => None
  end.

(** A running total of widths that are not negative: a double at or above
    0, or plus infinity. *)
Definition nonnegNum (t : num) : Prop :=
  match t with
  | Num x => 0 ≤ x ∧ representable x
  | Inf negative => negative = false
  | NaN => False
  end.

(** * Properties *)

(** ** Metadata *)

Lemma sumWidths_snoc cols c :
  sumWidths (cols ++ [c]) = num_add (sumWidths cols) (width c).
Proof. unfold sumWidths. by rewrite fold_left_app. Qed.

Lemma sumWidths_take_S cols (i : nat) c :
  cols !! i = Some c →
  sumWidths (take (S i) cols) = num_add (sumWidths (take i cols)) (width c).
Proof. intros Hi. by rewrite (take_S_r _ _ _ Hi), sumWidths_snoc. Qed.

(** The reducer on a list that ends with [c]: one more offset, the total
    so far, and the total grown by the width of [c]. *)
Lemma toMeta_snoc cols c :
  toMeta (cols ++ [c])
  = {| totalWidth := num_add (totalWidth (toMeta cols)) (width c);
       positions := positions (toMeta cols) ++ [totalWidth (toMeta cols)] |}.
Proof.
  unfold toMeta. rewrite fold_left_app. simpl.
  by destruct (fold_left toMeta_step cols (Num 0, [])) as [t ps].
Qed.

Lemma toMeta_eq cols :
  toMeta cols
  = {| totalWidth := sumWidths cols;
       positions := map (λ i, sumWidths (take i cols)) (seq 0 (length cols)) |}.
Proof.
  induction cols as [|c cols IH] using rev_ind; [done|].
  rewrite toMeta_snoc, IH. cbn [totalWidth positions].
  rewrite sumWidths_snoc, length_app, Nat.add_1_r, seq_S, map_app. simpl.
  f_equal. f_equal.
  - apply map_ext_in. intros i Hi. apply in_seq in Hi.
    by rewrite take_app_le by lia.
  - by rewrite take_app_length.
Qed.

Lemma toMeta_positions_length cols : length (positions (toMeta cols)) = length cols.
Proof. rewrite toMeta_eq. simpl. by rewrite length_map, length_seq. Qed.

Lemma toMeta_positions_lookup cols (i : nat) :
  (i < length cols)%nat → positions (toMeta cols) !! i = Some (sumWidths (take i cols)).
Proof.
  intros Hi. rewrite toMeta_eq. simpl. rewrite list_lookup_fmap.
  by rewrite lookup_seq_lt.
Qed.

(** *** Rounding *)

Lemma round_nat_small z : z < 2 ^ 53 → round_nat z = z.
Proof. intros H. unfold round_nat. by rewrite decide_True. Qed.

(** An integer at or above 2^53 lies between [2^52 * 2^k] and
    [2^53 * 2^k] for the [k] that [round_nat] uses. *)
Lemma binade z :
  2 ^ 53 ≤ z →
  let k := Z.log2 z - 52 in
  1 ≤ k ∧ 0 < 2 ^ k ∧ 2 ^ 52 * 2 ^ k ≤ z < 2 ^ 53 * 2 ^ k
  ∧ 2 ^ 52 ≤ z / 2 ^ k < 2 ^ 53.
Proof.
  intros Hz k.
  assert (0 < z) as Hpos by lia.
  pose proof (Z.log2_spec z Hpos) as [Hlo Hhi].
  assert (53 ≤ Z.log2 z) as Hl.
  { apply Z.log2_le_pow2; lia. }
  assert (1 ≤ k) as Hk by (unfold k; lia).
  assert (0 < 2 ^ k) as HP by (apply Z.pow_pos_nonneg; lia).
  assert (2 ^ Z.log2 z = 2 ^ 52 * 2 ^ k) as E1.
  { rewrite <- Z.pow_add_r by lia. f_equal. unfold k. lia. }
  assert (2 ^ Z.succ (Z.log2 z) = 2 ^ 53 * 2 ^ k) as E2.
  { rewrite <- Z.pow_add_r by lia. f_equal. unfold k. lia. }
  rewrite E1 in Hlo. rewrite E2 in Hhi.
  split_and!; try done.
  - apply Z.div_le_lower_bound; lia.
  - apply Z.div_lt_upper_bound; lia.
Qed.

Lemma round_nat_bounds z :
  2 ^ 53 ≤ z →
  let k := Z.log2 z - 52 in
  ∃ q', round_nat z = q' * 2 ^ k ∧ z / 2 ^ k ≤ q' ≤ z / 2 ^ k + 1.
Proof.
  intros Hz k. unfold round_nat. rewrite decide_False by lia. fold k.
  repeat case_decide; try destruct (Z.even _); eexists; (split; [reflexivity | lia]).
Qed.

Lemma round_nat_nonneg z : 0 ≤ z → 0 ≤ round_nat z.
Proof.
  intros Hz. destruct (decide (z < 2 ^ 53)) as [Hs|Hb].
  - by rewrite round_nat_small.
  - destruct (binade z) as (Hk & HP & Hz' & Hq); [lia|].
    destruct (round_nat_bounds z) as (q' & -> & Hq'); [lia|]. nia.
Qed.

(** Rounding does not go below a double that the integer is at or
    above. *)
Lemma round_nat_lower x z :
  0 ≤ x → x ≤ z → representable x → x ≤ round_nat z.
Proof.
  intros Hx Hxz Hr.
  destruct (decide (z < 2 ^ 53)) as [Hs|Hb].
  { by rewrite round_nat_small. }
  destruct (binade z) as (Hk & HP & Hz & Hq); [lia|].
  destruct (round_nat_bounds z) as (q' & -> & Hq'); [lia|].
  set (k := Z.log2 z - 52) in *.
  assert (z / 2 ^ k * 2 ^ k ≤ q' * 2 ^ k) as Hfloor by nia.
  destruct (decide (x < 2 ^ 52 * 2 ^ k)) as [Hlow|Hhigh]; [nia|].
  assert (Z.log2 x = Z.log2 z) as El.
  { apply Z.le_antisymm; [apply Z.log2_le_mono; lia|].
    apply Z.log2_le_pow2; [lia|].
    replace (2 ^ Z.log2 z) with (2 ^ 52 * 2 ^ k); [lia|].
    rewrite <- Z.pow_add_r by lia. f_equal. unfold k. lia. }
  destruct Hr as [Hr|Hr]; [nia|].
  rewrite El in Hr. fold k in Hr.
  apply Z.mod_divide in Hr; [|lia]. destruct Hr as [m ->].
  assert (m ≤ z / 2 ^ k) by (apply Z.div_le_lower_bound; lia).
  nia.
Qed.

Lemma round_nat_representable z : 0 ≤ z → representable (round_nat z).
Proof.
  intros Hz. destruct (decide (z < 2 ^ 53)) as [Hs|Hb].
  { rewrite round_nat_small by done. by left. }
  destruct (binade z) as (Hk & HP & Hz' & Hq); [lia|].
  destruct (round_nat_bounds z) as (q' & -> & Hq'); [lia|].
  set (k := Z.log2 z - 52) in *.
  right.
  destruct (decide (q' < 2 ^ 53)) as [Hlt|Hge].
  - assert (Z.log2 (q' * 2 ^ k) = 52 + k) as ->.
    { apply Z.log2_unique; [lia|]. rewrite Z.pow_add_r, Z.pow_succ_r by lia.
      rewrite Z.pow_add_r by lia. nia. }
    replace (52 + k - 52) with k by lia. apply Z.mod_mul. lia.
  - assert (q' = 2 ^ 53) as -> by lia.
    assert (Z.log2 (2 ^ 53 * 2 ^ k) = 53 + k) as ->.
    { rewrite <- Z.pow_add_r by lia. apply Z.log2_pow2. lia. }
    replace (53 + k - 52) with (Z.succ k) by lia.
    rewrite Z.pow_succ_r by lia.
    replace (2 ^ 53 * 2 ^ k) with (2 ^ 52 * (2 * 2 ^ k))
      by (change (2 ^ 53) with (2 * 2 ^ 52); ring).
    apply Z.mod_mul. lia.
Qed.

(** Between -2^53 and 2^53 nothing is rounded. *)
Lemma round_double_safe z : safeInteger z → round_double z = Num z.
Proof.
  intros [Hlo Hhi]. unfold round_double.
  rewrite round_nat_small by lia.
  rewrite decide_True by (assert (2 ^ 53 < 2 ^ 1024) by (by vm_compute); lia).
  f_equal. lia.
Qed.

Lemma num_add_safe x y : safeInteger (x + y) → num_add (Num x) (Num y) = Num (x + y).
Proof. intros H. simpl. by apply round_double_safe. Qed.

Lemma num_add_NaN_l b : num_add NaN b = NaN.
Proof. by destruct b. Qed.

Lemma num_add_NaN_r a : num_add a NaN = NaN.
Proof. by destruct a. Qed.

Lemma sumZ_snoc ws w : sumZ (ws ++ [w]) = sumZ ws + w.
Proof. induction ws as [|v ws IH]; simpl; lia. Qed.

(** While every partial sum stays strictly between -2^53 and 2^53, the
    sum the code computes is the exact sum of the widths. *)
Lemma sumWidths_exact (ws : list Z) : ∀ cols : list ColDef,
  (λ c, get c "width") <$> cols = VNum <$> ws →
  Forall safeInteger ws →
  (∀ i : nat, safeInteger (sumZ (take i ws))) →
  sumWidths cols = Num (sumZ ws).
Proof.
  induction ws as [|w ws IH] using rev_ind; intros cols Hw Hsafe Hsums.
  - by destruct cols.
  - rewrite fmap_app in Hw. simpl in Hw.
    destruct (decide (cols = [])) as [->|Hne].
    { by destruct ws. }
    destruct (exists_last Hne) as (cols' & c & ->).
    rewrite fmap_app in Hw. simpl in Hw.
    apply app_inj_tail in Hw as [Hw Hc].
    apply Forall_app in Hsafe as [Hsafe Hsw]. apply Forall_inv in Hsw.
    rewrite sumWidths_snoc, (IH cols' Hw Hsafe).
    + unfold width. rewrite Hc. simpl to_number. rewrite (round_double_safe w Hsw).
      rewrite sumZ_snoc. apply num_add_safe.
      rewrite <- sumZ_snoc. specialize (Hsums (length (ws ++ [w]))).
      by rewrite firstn_all in Hsums.
    + intros i. destruct (decide (i ≤ length ws)%nat) as [Hi|Hi].
      * specialize (Hsums i). by rewrite take_app_le in Hsums by lia.
      * specialize (Hsums (length ws)). rewrite take_app_length in Hsums.
        by rewrite take_ge by lia.
Qed.

(** C1. For every list of visible columns whose widths are of the declared
    type, [positions] is as long as the list, [positions[i]] is the sum of
    the widths of the columns before index [i] (so [positions[0]] is 0), and
    [totalWidth] is the sum of all the widths, the sums being those of the
    language: added from left to right in double precision. They are the
    exact sums as long as the widths and every partial sum are integers
    strictly between -2^53 and 2^53; beyond, they are rounded: the widths
    2^53, 1, 1 give the positions 0, 2^53, 2^53 and the total 2^53, and two
    widths of 2^1023 give an infinite total. A width that is [null] counts
    as 0. On the columns a (100), b (50, hidden), c (80) the visible
    columns are a and c, the total width is 180 and the positions are 0
    and 100. *)
Theorem toMeta_prefix_sums :
  (∀ visibleColumns : list ColDef,
     Forall typedWidth visibleColumns →
     length (positions (toMeta visibleColumns)) = length visibleColumns
     ∧ (∀ i : nat, (i < length visibleColumns)%nat →
          positions (toMeta visibleColumns) !! i = Some (sumWidths (take i visibleColumns)))
     ∧ (∀ c rest, visibleColumns = c :: rest →
          positions (toMeta visibleColumns) !! 0%nat = Some (Num 0))
     ∧ totalWidth (toMeta visibleColumns) = sumWidths visibleColumns
     ∧ (∀ ws : list Z,
          (λ c, get c "width") <$> visibleColumns = VNum <$> ws →
          Forall safeInteger ws →
          (∀ i : nat, safeInteger (sumZ (take i ws))) →
          (∀ i : nat, (i < length visibleColumns)%nat →
             positions (toMeta visibleColumns) !! i = Some (Num (sumZ (take i ws))))
          ∧ totalWidth (toMeta visibleColumns) = Num (sumZ ws)))
  ∧ toMeta [colHuge; colOne; colTwo]
    = {| totalWidth := Num (2 ^ 53); positions := [Num 0; Num (2 ^ 53); Num (2 ^ 53)] |}
  ∧ toMeta [colMax; colMax]
    = {| totalWidth := Inf false; positions := [Num 0; Num (2 ^ 1023)] |}
  ∧ toMeta [colNull; colC; colA]
    = {| totalWidth := Num 180; positions := [Num 0; Num 0; Num 80] |}
  ∧ filterVisible [colA; colB; colC] = [colA; colC]
  ∧ toMeta (filterVisible [colA; colB; colC])
    = {| totalWidth := Num 180; positions := [Num 0; Num 100] |}.
Proof.
  split; [|split_and!; vm_compute; reflexivity].
  intros cols _. split; [apply toMeta_positions_length|].
  split; [apply toMeta_positions_lookup|].
  split. { intros c rest ->. rewrite toMeta_positions_lookup; [done | simpl; lia]. }
  split; [by rewrite toMeta_eq|].
  intros ws Hw Hsafe Hsums. split.
  - intros i Hi. rewrite toMeta_positions_lookup by done. f_equal.
    apply sumWidths_exact.
    + by rewrite !fmap_take, Hw.
    + by apply Forall_take.
    + intros j. rewrite take_take. apply Hsums.
  - rewrite toMeta_eq. simpl. by apply sumWidths_exact.
Qed.

Lemma toMeta_prefix_sums_witness :
  Forall typedWidth [colA; colC]
  ∧ positions (toMeta [colA; colC]) !! 1%nat = Some (sumWidths (take 1 [colA; colC]))
  ∧ positions (toMeta [colA; colC]) !! 0%nat = Some (Num 0)
  ∧ positions (toMeta [colA; colC]) !! 1%nat = Some (Num (sumZ (take 1 [100; 80])))
  ∧ totalWidth (toMeta [colA; colC]) = Num (sumZ [100; 80]).
Proof.
  assert (Forall typedWidth [colA; colC]) as Ht.
  { apply (bool_decide_unpack (Forall typedWidth [colA; colC])). by vm_compute. }
  split; [exact Ht|].
  destruct toMeta_prefix_sums as [H _].
  destruct (H [colA; colC] Ht) as (_ & Hpos & Hzero & _ & Hexact).
  split; [apply Hpos; simpl; lia|]. split; [by eapply Hzero|].
  destruct (Hexact [100; 80]) as [Hp Htot].
  - by vm_compute.
  - apply (bool_decide_unpack (Forall safeInteger [100; 80])). by vm_compute.
  - intros [|[|[|i]]]; by vm_compute.
  - split; [apply Hp; simpl; lia | exact Htot].
Defined.

(** ** Values, objects, arrays *)

Lemma strict_eq_true a b : Is_true (strict_eq a b) ↔ a = b.
Proof. unfold strict_eq. apply bool_decide_spec. Qed.

Lemma get_spread_explicit (d c : ColDef) k v :
  c !! k = Some v → spread d c !! k = Some v.
Proof. intros H. unfold spread. by apply lookup_union_Some_l. Qed.

Lemma get_spread_default (d c : ColDef) k :
  c !! k = None → spread d c !! k = d !! k.
Proof. intros H. unfold spread. by apply lookup_union_r. Qed.

Lemma spread_lookup (d c : ColDef) k :
  spread d c !! k = match c !! k with Some v => Some v | None => d !! k end.
Proof.
  destruct (c !! k) as [v|] eqn:E.
  - by apply get_spread_explicit.
  - by apply get_spread_default.
Qed.

Lemma spread_twice (a p : ColDef) : spread (spread a p) p = spread a p.
Proof. unfold spread. by rewrite (assoc_L (∪)), (idemp_L (∪)). Qed.

Lemma spread_empty (p : ColDef) : spread ∅ p = p.
Proof. unfold spread. apply (right_id_L ∅ (∪)). Qed.

(** A column found by the field of a patch keeps that field under the
    patch. *)
Lemma field_spread (a p : ColDef) : field a = field p → field (spread a p) = field p.
Proof.
  unfold field, get. intros H. rewrite spread_lookup.
  destruct (p !! "field") as [v|]; [done | exact H].
Qed.

Lemma get_assign_ne k k' v (c : ColDef) : k ≠ k' → get (assign k v c) k' = get c k'.
Proof. intros H. unfold get, assign. by rewrite lookup_insert_ne. Qed.

Lemma get_assign_eq k v (c : ColDef) : get (assign k v c) k = v.
Proof. unfold get, assign. by rewrite lookup_insert_eq. Qed.

Lemma lookup_assign_ne k k' v (c : ColDef) : k ≠ k' → assign k v c !! k' = c !! k'.
Proof. intros H. unfold assign. by rewrite lookup_insert_ne. Qed.

Section FindIndex.
Context {A : Type} (p : A → bool).

Lemma findIndex_found (arr : list A) i x :
  list_find (λ x, Is_true (p x)) arr = Some (i, x) →
  findIndex p arr = Z.of_nat i
  ∧ at_index arr (findIndex p arr) = Some x
  ∧ ∀ y, set_index arr (findIndex p arr) y = <[i := y]> arr.
Proof.
  intros H. unfold findIndex, at_index, set_index. rewrite H.
  apply list_find_Some in H as (Hx & _ & _).
  split_and!; [done | | intros y]; rewrite decide_True by lia; by rewrite Nat2Z.id.
Qed.

Lemma findIndex_missing (arr : list A) :
  list_find (λ x, Is_true (p x)) arr = None →
  findIndex p arr = -1
  ∧ at_index arr (findIndex p arr) = None
  ∧ ∀ y, set_index arr (findIndex p arr) y = arr.
Proof.
  intros H. unfold findIndex, at_index, set_index. rewrite H.
  split_and!; [done | | intros y]; by rewrite decide_False by lia.
Qed.

Lemma findIndex_range (arr : list A) :
  -1 ≤ findIndex p arr < Z.of_nat (length arr).
Proof.
  unfold findIndex. destruct (list_find _ arr) as [[i x]|] eqn:H; [|lia].
  apply list_find_Some in H as (Hx & _ & _). apply lookup_lt_Some in Hx. lia.
Qed.

End FindIndex.

Lemma forEachFrom_app {A St} (body : A → nat → St → St) idx (l1 l2 : list A) s :
  forEachFrom body idx (l1 ++ l2) s
  = forEachFrom body (idx + length l1) l2 (forEachFrom body idx l1 s).
Proof.
  revert idx s. induction l1 as [|x l1 IH]; intros idx s; simpl.
  - by rewrite Nat.add_0_r.
  - rewrite IH. f_equal. lia.
Qed.

(** An invariant of the loop state that every round keeps holds at the
    end. *)
Lemma forEachFrom_invariant {A St} (I : St → Prop) (Q : A → Prop)
    (body : A → nat → St → St) (arr : list A) :
  (∀ x idx s, Q x → I s → I (body x idx s)) →
  Forall Q arr → ∀ idx s, I s → I (forEachFrom body idx arr s).
Proof.
  intros Hbody Harr. induction Harr as [|x arr Hx _ IH]; intros idx s Hs; simpl.
  - done.
  - apply IH. by apply Hbody.
Qed.

(** ** Patch updates *)

Lemma present_find cols (newColumn : ColDef) :
  present cols newColumn →
  ∃ i c, list_find (λ c, Is_true (strict_eq (field c) (field newColumn))) cols = Some (i, c).
Proof.
  intros (c & Hc & Hf).
  destruct (list_find_elem_of (λ c, Is_true (strict_eq (field c) (field newColumn))) cols c)
    as [[i c'] H]; [done | by apply strict_eq_true | eauto].
Qed.

(** One round of the loop when the patched field is found. *)
Lemma applyColumnUpdate_found newColumn idx l i existing :
  list_find (λ c, Is_true (strict_eq (field c) (field newColumn))) (new_all l) = Some (i, existing) →
  new_all (applyColumnUpdate newColumn idx l) = <[i := spread existing newColumn]> (new_all l)
  ∧ new_lookup (applyColumnUpdate newColumn idx l)
    = <[to_key (field newColumn) := spread existing newColumn]> (new_lookup l).
Proof.
  intros H. apply findIndex_found in H as (_ & Hat & Hset).
  unfold applyColumnUpdate. cbn [new_all new_lookup]. by rewrite Hat, Hset.
Qed.

(** One round when no column has the patched field: the array keeps its
    elements and the lookup gains the patch itself. *)
Lemma applyColumnUpdate_missing newColumn idx l :
  list_find (λ c, Is_true (strict_eq (field c) (field newColumn))) (new_all l) = None →
  new_all (applyColumnUpdate newColumn idx l) = new_all l
  ∧ new_lookup (applyColumnUpdate newColumn idx l)
    = <[to_key (field newColumn) := newColumn]> (new_lookup l).
Proof.
  intros H. apply findIndex_missing in H as (_ & Hat & Hset).
  unfold applyColumnUpdate. cbn [new_all new_lookup].
  by rewrite Hat, Hset, spread_empty.
Qed.

Lemma getUpdatedColumnState_derived state columnUpdates :
  visible (getUpdatedColumnState state columnUpdates)
  = filterVisible (all (getUpdatedColumnState state columnUpdates))
  ∧ meta (getUpdatedColumnState state columnUpdates)
    = toMeta (visible (getUpdatedColumnState state columnUpdates)).
Proof. done. Qed.

(** C6. A patch whose field identifier names a column of the state replaces
    the first column with that identifier, in place, by the shallow merge of
    that column with the patch: the merge has, under every key, the value of
    the patch if the patch has the key and that of the column otherwise. The
    merge is filed under the identifier in the lookup; every other position
    of the ordered collection and every other key of the lookup is as
    before; the visible columns and the metadata are derived from the new
    collection. (The identifier is any but "__proto__", which an object
    does not keep as an entry, and the lookup has nothing filed under it
    either.) *)
Theorem patch_changes_one_entry (state : InternalColumns) (newColumn : ColDef) :
  present (all state) newColumn →
  to_key (field newColumn) ≠ "__proto__" →
  lookup state !! "__proto__" = None →
  let newState := getUpdatedColumnState state [newColumn] in
  ∃ (i : nat) (existing merged : ColDef),
    all state !! i = Some existing
    ∧ field existing = field newColumn
    ∧ (∀ j c, (j < i)%nat → all state !! j = Some c → field c ≠ field newColumn)
    ∧ (∀ k, merged !! k = match newColumn !! k with
                          | Some v => Some v
                          | None => existing !! k
                          end)
    ∧ length (all newState) = length (all state)
    ∧ all newState !! i = Some merged
    ∧ (∀ j, j ≠ i → all newState !! j = all state !! j)
    ∧ lookup newState !! to_key (field newColumn) = Some merged
    ∧ (∀ k, k ≠ to_key (field newColumn) → lookup newState !! k = lookup state !! k)
    ∧ visible newState = filterVisible (all newState)
    ∧ meta newState = toMeta (visible newState).
Proof.
  intros Hp _ _ newState.
  destruct (present_find _ _ Hp) as (i & existing & Hfind).
  pose proof (applyColumnUpdate_found newColumn 0%nat
    {| new_all := all state; new_lookup := lookup state; shared := true;
       state_all := all state; state_minus_one := None;
       state_lookup := lookup state |} i existing Hfind) as [Hall Hlk].
  cbn [new_all new_lookup] in Hall, Hlk.
  apply list_find_Some in Hfind as (Hi & Hf & Hfirst).
  apply strict_eq_true in Hf.
  assert (all newState = <[i := spread existing newColumn]> (all state)) as Ea by exact Hall.
  assert (lookup newState = <[to_key (field newColumn) := spread existing newColumn]> (lookup state))
    as El by exact Hlk.
  exists i, existing, (spread existing newColumn). rewrite Ea, El.
  split; [done|]. split; [done|].
  split. { intros j c Hj Hc Hfc. eapply Hfirst; [done.. | by apply strict_eq_true]. }
  split. { intros k. apply spread_lookup. }
  split. { by rewrite length_insert. }
  split. { apply list_lookup_insert_eq. by eapply lookup_lt_Some. }
  split. { intros j Hj. by rewrite list_lookup_insert_ne. }
  split. { by rewrite lookup_insert_eq. }
  split. { intros k Hk. by rewrite lookup_insert_ne. }
  rewrite <- Ea. apply getUpdatedColumnState_derived.
Qed.

Lemma patch_changes_one_entry_witness :
  present (all stateABC) showB
  ∧ to_key (field showB) ≠ "__proto__"
  ∧ lookup stateABC !! "__proto__" = None
  ∧ ∃ (i : nat) (existing merged : ColDef),
      all stateABC !! i = Some existing
      ∧ existing !! "width" = Some (VNum 50)
      ∧ existing !! "hide" = Some (VBool true)
      ∧ merged !! "field" = Some (VStr "b")
      ∧ merged !! "width" = Some (VNum 50)
      ∧ merged !! "hide" = Some (VBool false)
      ∧ all (getUpdatedColumnState stateABC [showB]) !! i = Some merged
      ∧ lookup (getUpdatedColumnState stateABC [showB]) !! "b" = Some merged.
Proof.
  assert (present (all stateABC) showB) as Hp.
  { exists (spread (sampleColDef VUndefined) colB). split; [|by vm_compute].
    apply list_elem_of_lookup. by exists 1%nat. }
  assert (to_key (field showB) ≠ "__proto__") as Hk by (by vm_compute).
  assert (lookup stateABC !! "__proto__" = None) as Hproto by (by vm_compute).
  split; [exact Hp|]. split; [exact Hk|]. split; [exact Hproto|].
  destruct (patch_changes_one_entry stateABC showB Hp Hk Hproto)
    as (i & existing & merged & H1 & Hf & Hfirst & Hm & _ & H2 & _ & H3 & _).
  assert (i = 1%nat) as ->.
  { destruct i as [|[|i]]; [|done|].
    - injection H1 as <-. by vm_compute in Hf.
    - exfalso. apply (Hfirst 1%nat (spread (sampleColDef VUndefined) colB)); [lia | done | by vm_compute]. }
  injection H1 as <-.
  eexists 1%nat, _, merged. split; [by vm_compute|].
  split; [by vm_compute|]. split; [by vm_compute|].
  rewrite !Hm. split; [by vm_compute|]. split; [by vm_compute|]. split; [by vm_compute|].
  split; [exact H2 | exact H3].
Defined.

Lemma getUpdatedColumnState_ext state state' ups ups' :
  new_all (runColumnUpdates state ups) = new_all (runColumnUpdates state' ups') →
  new_lookup (runColumnUpdates state ups) = new_lookup (runColumnUpdates state' ups') →
  getUpdatedColumnState state ups = getUpdatedColumnState state' ups'.
Proof. unfold getUpdatedColumnState. by intros -> ->. Qed.

(** C10. Applying twice in succession a patch whose field identifier names
    a column of the state gives the same state as applying it once. *)
Theorem patch_idempotent (state : InternalColumns) (newColumn : ColDef) :
  present (all state) newColumn →
  getUpdatedColumnState (getUpdatedColumnState state [newColumn]) [newColumn]
  = getUpdatedColumnState state [newColumn].
Proof.
  intros Hp.
  destruct (present_find _ _ Hp) as (i & existing & Hfind).
  set (once := getUpdatedColumnState state [newColumn]).
  set (merged := spread existing newColumn).
  pose proof (applyColumnUpdate_found newColumn 0%nat
    {| new_all := all state; new_lookup := lookup state; shared := true;
       state_all := all state; state_minus_one := None;
       state_lookup := lookup state |} i existing Hfind) as [Hall Hlk].
  cbn [new_all new_lookup] in Hall, Hlk. fold merged in Hall, Hlk.
  assert (all once = <[i := merged]> (all state)) as Ea by exact Hall.
  assert (lookup once = <[to_key (field newColumn) := merged]> (lookup state)) as El by exact Hlk.
  apply list_find_Some in Hfind as (Hi & Hf & Hfirst).
  assert (field merged = field newColumn) as Hfm.
  { apply field_spread. by apply strict_eq_true. }
  assert (list_find (λ c, Is_true (strict_eq (field c) (field newColumn))) (all once)
          = Some (i, merged)) as Hfind'.
  { apply list_find_Some. rewrite Ea. split_and!.
    - apply list_lookup_insert_eq. by eapply lookup_lt_Some.
    - by apply strict_eq_true.
    - intros j y Hj Hlt. rewrite list_lookup_insert_ne in Hj by lia. by eapply Hfirst. }
  pose proof (applyColumnUpdate_found newColumn 0%nat
    {| new_all := all once; new_lookup := lookup once; shared := true;
       state_all := all once; state_minus_one := None;
           state_lookup := lookup once |} i merged Hfind') as [Hall' Hlk'].
  cbn [new_all new_lookup] in Hall', Hlk'.
  apply getUpdatedColumnState_ext.
  - change (new_all (runColumnUpdates once [newColumn])) with
      (new_all (applyColumnUpdate newColumn 0%nat
        {| new_all := all once; new_lookup := lookup once; shared := true;
           state_all := all once; state_minus_one := None;
           state_lookup := lookup once |})).
    rewrite Hall'. unfold merged at 1. rewrite spread_twice. fold merged.
    rewrite Ea. by rewrite list_insert_insert_eq.
  - change (new_lookup (runColumnUpdates once [newColumn])) with
      (new_lookup (applyColumnUpdate newColumn 0%nat
        {| new_all := all once; new_lookup := lookup once; shared := true;
           state_all := all once; state_minus_one := None;
           state_lookup := lookup once |})).
    rewrite Hlk'. unfold merged at 1. rewrite spread_twice. fold merged.
    rewrite El. by rewrite insert_insert_eq.
Qed.

Lemma patch_idempotent_witness :
  present (all stateABC) showB
  ∧ getUpdatedColumnState (getUpdatedColumnState stateABC [showB]) [showB]
    = getUpdatedColumnState stateABC [showB].
Proof.
  assert (present (all stateABC) showB) as Hp.
  { exists (spread (sampleColDef VUndefined) colB). split; [|by vm_compute].
    apply list_elem_of_lookup. by exists 1%nat. }
  split; [exact Hp | exact (patch_idempotent stateABC showB Hp)].
Defined.

(** ** The object passed to [getUpdatedColumnState] *)

Lemma applyColumnUpdate_unshared updates : ∀ idx l,
  shared l = false →
  state_all (forEachFrom applyColumnUpdate idx updates l) = state_all l
  ∧ state_minus_one (forEachFrom applyColumnUpdate idx updates l) = state_minus_one l
  ∧ state_lookup (forEachFrom applyColumnUpdate idx updates l) = state_lookup l.
Proof.
  induction updates as [|p updates IH]; intros idx l Hs; [done|].
  simpl. destruct (IH (S idx) (applyColumnUpdate p idx l) eq_refl) as (-> & -> & ->).
  unfold applyColumnUpdate. simpl. by rewrite Hs.
Qed.

(** The first patch is written into the array and the lookup of the state
    the caller passed; the later ones are not, and its visible columns and
    metadata stay as they were. *)
Lemma stateAfterUpdate_first state newColumn rest :
  all (passed (stateAfterUpdate state (newColumn :: rest)))
  = all (getUpdatedColumnState state [newColumn])
  ∧ lookup (passed (stateAfterUpdate state (newColumn :: rest)))
    = lookup (getUpdatedColumnState state [newColumn])
  ∧ visible (passed (stateAfterUpdate state (newColumn :: rest))) = visible state
  ∧ meta (passed (stateAfterUpdate state (newColumn :: rest))) = meta state
  ∧ passedMinusOne (stateAfterUpdate state (newColumn :: rest))
    = passedMinusOne (stateAfterUpdate state [newColumn]).
Proof.
  unfold stateAfterUpdate, getUpdatedColumnState, runColumnUpdates, forEach. simpl.
  match goal with
  | |- context [forEachFrom applyColumnUpdate 1 rest ?l] =>
      destruct (applyColumnUpdate_unshared rest 1%nat l eq_refl) as (-> & -> & ->)
  end.
  done.
Qed.

(** A patch that names a column of the state leaves no property "-1" on
    the array passed in; one that names none leaves itself there. *)
Lemma stateAfterUpdate_minus_one state newColumn :
  passedMinusOne (stateAfterUpdate state [newColumn])
  = match list_find (λ c, Is_true (strict_eq (field c) (field newColumn))) (all state) with
    | Some _ => None
    | None => Some newColumn
    end.
Proof.
  unfold stateAfterUpdate, runColumnUpdates, forEach. simpl.
  destruct (list_find _ _) as [[i existing]|] eqn:Hfind.
  - apply findIndex_found in Hfind as (Hidx & _). rewrite Hidx.
    unfold set_minus_one. by rewrite decide_True by lia.
  - apply findIndex_missing in Hfind as (Hidx & Hat & _). rewrite Hat, Hidx.
    unfold set_minus_one. rewrite decide_False by lia. by rewrite spread_empty.
Qed.

(** ** Consistency of the column state *)

Lemma isVisible_shown c : Is_true (isVisible c) ↔ shown c.
Proof.
  unfold isVisible, shown.
  destruct (field c), (truthy (hide c)); simpl; intuition congruence.
Qed.

Lemma filterVisible_shown cols : filterVisible cols = filter shown cols.
Proof. unfold filterVisible. apply list_filter_iff. intros c. apply isVisible_shown. Qed.

(** The fold of [toLookup], from any starting map: a key holds the last
    column filed under it, or what the map had. *)
Lemma toLookup_fold cols : ∀ (m : gmap string ColDef) k,
  fold_left (λ lookup col, <[to_key (field col) := col]> lookup) cols m !! k
  = match last (filter (λ c, keyOf c = k) cols) with
    | Some c => Some c
    | None => m !! k
    end.
Proof.
  induction cols as [|c cols IH]; intros m k; [done|].
  simpl. rewrite IH. rewrite filter_cons. fold (keyOf c).
  destruct (decide (keyOf c = k)) as [->|Hne].
  - rewrite last_cons. destruct (last _); [done|]. by rewrite lookup_insert_eq.
  - destruct (last _); [done|]. by rewrite lookup_insert_ne.
Qed.

Lemma toLookup_last cols k :
  toLookup cols !! k = last (filter (λ c, keyOf c = k) cols).
Proof. unfold toLookup. rewrite toLookup_fold. by destruct (last _). Qed.

Lemma consistent_intro s :
  visible s = filterVisible (all s) →
  meta s = toMeta (visible s) →
  lookup s = toLookup (all s) →
  consistent s.
Proof.
  intros Hv Hm Hl. unfold consistent. rewrite Hm, toMeta_eq. simpl.
  split; [by rewrite Hv at 1; apply filterVisible_shown|].
  split; [done|]. split; [done|].
  intros k. rewrite Hl. apply toLookup_last.
Qed.

Lemma consistent_lookup s : consistent s → lookup s = toLookup (all s).
Proof.
  intros (_ & _ & _ & Hl). apply map_eq. intros k. by rewrite Hl, toLookup_last.
Qed.

Lemma resetState_consistent getColDef checkboxObj columns options apiRef :
  consistent (resetState getColDef checkboxObj columns options apiRef).
Proof. by apply consistent_intro. Qed.

(** Replacing a column by one of the same key, when no later column has
    that key, re-files that key and nothing else. *)
Lemma toLookup_insert cols i (a m : ColDef) :
  cols !! i = Some a →
  keyOf m = keyOf a →
  (∀ j c, (i < j)%nat → cols !! j = Some c → keyOf c ≠ keyOf a) →
  toLookup (<[i := m]> cols) = <[keyOf a := m]> (toLookup cols).
Proof.
  intros Hi Hk Hlater.
  assert (length (take i cols) = i) as Hlen.
  { apply length_take_le. apply lookup_lt_Some in Hi. lia. }
  pose proof (take_drop_middle cols i a Hi) as E.
  revert Hlen E. generalize (take i cols) (drop (S i) cols). intros l1 l2 Hlen E.
  subst cols i. clear Hi.
  rewrite insert_app_r_alt, Nat.sub_diag by lia. simpl.
  apply map_eq. intros k. rewrite toLookup_last, filter_app, filter_cons.
  destruct (decide (k = keyOf a)) as [->|Hne].
  - rewrite lookup_insert_eq. rewrite decide_True by done.
    assert (filter (λ c, keyOf c = keyOf a) l2 = []) as ->.
    { destruct (filter _ l2) as [|c rest] eqn:E; [done|].
      assert (c ∈ filter (λ c, keyOf c = keyOf a) l2) as Hc by (rewrite E; left).
      apply list_elem_of_filter in Hc as [Hkc Hc].
      apply list_elem_of_lookup in Hc as [j Hj].
      exfalso. eapply (Hlater (length l1 + S j)%nat c); [lia | | done].
      rewrite lookup_app_r by lia.
      by replace (length l1 + S j - length l1)%nat with (S j) by lia. }
    by rewrite last_snoc.
  - rewrite lookup_insert_ne by done. rewrite decide_False by congruence.
    rewrite toLookup_last, filter_app, filter_cons.
    by rewrite decide_False by congruence.
Qed.

Lemma present_fields cols cols' (newColumn : ColDef) :
  field <$> cols = field <$> cols' → present cols newColumn → present cols' newColumn.
Proof.
  intros Hf (c & Hc & Hfc).
  assert (field newColumn ∈ field <$> cols') as Hin.
  { rewrite <- Hf, <- Hfc. by apply list_elem_of_fmap_2. }
  apply list_elem_of_fmap in Hin as (c' & Hfc' & Hc'). by exists c'.
Qed.

Lemma keyOf_fmap (cols : list ColDef) : keyOf <$> cols = to_key <$> (field <$> cols).
Proof. by rewrite <- list_fmap_compose. Qed.

Lemma keyOf_fields (cols cols' : list ColDef) :
  field <$> cols = field <$> cols' → keyOf <$> cols = keyOf <$> cols'.
Proof. intros H. by rewrite !keyOf_fmap, H. Qed.

(** One round of the loop on valid input keeps the lookup in step with the
    array and leaves the field identifiers where they are. *)
Lemma applyColumnUpdate_consistent (fields : list val) newColumn idx l :
  NoDup (to_key <$> fields) →
  field newColumn ∈ fields →
  new_lookup l = toLookup (new_all l) ∧ field <$> new_all l = fields →
  new_lookup (applyColumnUpdate newColumn idx l) = toLookup (new_all (applyColumnUpdate newColumn idx l))
  ∧ field <$> new_all (applyColumnUpdate newColumn idx l) = fields.
Proof.
  intros Hnd Hin [Hl Hf].
  assert (present (new_all l) newColumn) as Hp.
  { rewrite <- Hf in Hin. apply list_elem_of_fmap in Hin as (c & Hc1 & Hc2). by exists c. }
  destruct (present_find _ _ Hp) as (i & a & Hfind).
  destruct (applyColumnUpdate_found newColumn idx l i a Hfind) as [-> ->].
  apply list_find_Some in Hfind as (Hi & Hfa & _). apply strict_eq_true in Hfa.
  assert (field (spread a newColumn) = field a) as Hfm by (by rewrite field_spread).
  split.
  - rewrite Hl, <- Hfa. symmetry. apply toLookup_insert; [done | |].
    + unfold keyOf. by rewrite Hfm.
    + intros j c Hj Hc Hk.
      assert ((to_key <$> fields) !! i = Some (keyOf a)) as H1.
      { rewrite <- Hf, <- keyOf_fmap, list_lookup_fmap, Hi. done. }
      assert ((to_key <$> fields) !! j = Some (keyOf a)) as H2.
      { rewrite <- Hf, <- keyOf_fmap, list_lookup_fmap, Hc. simpl.
        f_equal. exact Hk. }
      pose proof (NoDup_lookup _ _ _ _ Hnd H1 H2). lia.
  - rewrite list_fmap_insert, Hfm. rewrite list_insert_id; [done|].
    by rewrite list_lookup_fmap, Hi.
Qed.

Lemma getUpdatedColumnState_consistent state columnUpdates :
  consistent state → validUpdates state columnUpdates →
  consistent (getUpdatedColumnState state columnUpdates)
  ∧ field <$> all (getUpdatedColumnState state columnUpdates) = field <$> all state.
Proof.
  intros Hc [Hnd Hps].
  assert (new_lookup (runColumnUpdates state columnUpdates)
            = toLookup (new_all (runColumnUpdates state columnUpdates))
          ∧ field <$> new_all (runColumnUpdates state columnUpdates) = field <$> all state)
    as [Hl Hf].
  { unfold runColumnUpdates, forEach.
    apply (forEachFrom_invariant
      (λ l, new_lookup l = toLookup (new_all l) ∧ field <$> new_all l = field <$> all state)
      (λ p, field p ∈ field <$> all state)).
    - intros p idx l Hp Hl. apply applyColumnUpdate_consistent; [|done..].
      by rewrite <- keyOf_fmap.
    - eapply Forall_impl; [exact Hps|]. intros p (c & Hc1 & Hc2).
      rewrite <- Hc2. by apply list_elem_of_fmap_2.
    - split; [by apply consistent_lookup | done]. }
  split; [|exact Hf].
  by apply consistent_intro.
Qed.

(** ** The hook *)

Lemma onSortedColumns_stateRef apiRef sortModel h :
  stateRef (onSortedColumns apiRef sortModel h)
  = let updatedCols := (sortUpdates (sortedColFieldsRef h) sortModel).2 in
    if bool_decide (0 < length updatedCols)%nat
    then getUpdatedColumnState (stateRef h) updatedCols
    else stateRef h.
Proof.
  unfold onSortedColumns. destruct (sortUpdates _ _) as [fields updatedCols]. simpl.
  by destruct (bool_decide _).
Qed.

Lemma onSortedColumns_internalColumns apiRef sortModel h :
  internalColumns h = stateRef h →
  internalColumns (onSortedColumns apiRef sortModel h)
  = stateRef (onSortedColumns apiRef sortModel h).
Proof.
  intros H. unfold onSortedColumns. destruct (sortUpdates _ _) as [fields updatedCols].
  simpl. by destruct (bool_decide _).
Qed.

Lemma reachable_consistent getColDef h :
  reachable getColDef h → consistent (stateRef h) ∧ internalColumns h = stateRef h.
Proof.
  induction 1 as [cb columns options apiRef | h e Hr [IHc IHi] Hv].
  - split; [apply resetState_consistent | done].
  - destruct e as [columns options apiRef | columns options apiRef | apiRef col
                   | apiRef cols | apiRef sortModel]; simpl in *.
    + done.
    + split; [apply resetState_consistent | done].
    + split; [by apply getUpdatedColumnState_consistent | done].
    + split; [by apply getUpdatedColumnState_consistent | done].
    + split; [|by apply onSortedColumns_internalColumns].
      rewrite onSortedColumns_stateRef. simpl.
      destruct (bool_decide _); [by apply getUpdatedColumnState_consistent | done].
Qed.

(** What does hold of the states the hook computes. The state computed by
    [resetState] is consistent for every input. The state computed by a
    patch update always has its visible columns and metadata derived from
    its full collection, and is consistent when the state it starts from is
    consistent, the keys of the full collection are pairwise distinct and
    every patch names a column of it. Hence the value of [stateRef] is
    consistent after a mount followed by renders, input changes, and
    patches and sort models of that kind, and the React state holds the
    same value. *)
Lemma computed_state_consistent (getColDef : val → ColDef) :
  (∀ checkboxObj columns options apiRef,
     consistent (resetState getColDef checkboxObj columns options apiRef))
  ∧ (∀ state columnUpdates,
       let newState := getUpdatedColumnState state columnUpdates in
       visible newState = filter shown (all newState)
       ∧ totalWidth (meta newState) = sumWidths (visible newState)
       ∧ positions (meta newState)
         = map (λ i, sumWidths (take i (visible newState))) (seq 0 (length (visible newState))))
  ∧ (∀ state columnUpdates,
       consistent state → validUpdates state columnUpdates →
       consistent (getUpdatedColumnState state columnUpdates))
  ∧ (∀ h, reachable getColDef h →
       consistent (stateRef h) ∧ internalColumns h = stateRef h).
Proof.
  split; [intros; apply resetState_consistent|].
  split.
  { intros state ups newState.
    destruct (getUpdatedColumnState_derived state ups) as [Hv Hm]. fold newState in Hv, Hm.
    split; [rewrite Hv; apply filterVisible_shown|].
    by rewrite Hm, toMeta_eq. }
  split; [intros state ups Hc Hv; by apply getUpdatedColumnState_consistent|].
  apply reachable_consistent.
Qed.

Lemma stateABC_showB_valid : validUpdates stateABC [showB].
Proof.
  split.
  - apply (bool_decide_unpack (NoDup (keyOf <$> all stateABC))). by vm_compute.
  - constructor; [|constructor].
    exists (spread (sampleColDef VUndefined) colB). split; [|by vm_compute].
    apply list_elem_of_lookup. by exists 1%nat.
Qed.

(** C7. The claim does not hold of the code, in two ways, both on input
    that the specification allows.

    First, [updateColumn] and [updateColumns] hand the committed state
    itself to [getUpdatedColumnState], whose first round writes the merged
    column into the array [all] and into the lookup of that very object
    (lines 93 and 96) before it copies them (lines 94 and 97). For a patch
    that names a column, the state object committed before the call ends
    with the full collection and the lookup of the state committed after it
    and with its own, older, visible columns and metadata; when the patch
    changes what is visible, that object, which was consistent, no longer
    is. On the columns a, b (hidden), c and the patch that shows b, it
    lists b among all its columns as shown and not among the visible ones.

    Second, the reaction to a sort model clears the fields it remembers
    without looking whether the input still has them. Mount on a, b, c;
    sort by a; change the input to b, c; clear the sort
    ([sortThenRemove]): every state committed on the way is consistent,
    and the last one files under "a" a column that its full collection
    does not have. Every event of that sequence is one the host may
    send. *)
Theorem committed_state_left_partial :
  (∀ (apiRef : option GridApi) (h : hook) (col : ColDef),
     present (all (stateRef h)) col →
     let before := stateAfterUpdate (stateRef h) [col] in
     let after := stateRef (updateColumn apiRef col h) in
     all (passed before) = all after
     ∧ lookup (passed before) = lookup after
     ∧ passedMinusOne before = None
     ∧ visible (passed before) = visible (stateRef h)
     ∧ meta (passed before) = meta (stateRef h)
     ∧ (visible after ≠ visible (stateRef h) →
          visible (passed before) ≠ filter shown (all (passed before))
          ∧ ¬ consistent (passed before)))
  ∧ (consistent (stateRef hookABC)
     ∧ validUpdates (stateRef hookABC) [showB]
     ∧ consistent (stateRef (updateColumn None showB hookABC))
     ∧ field <$> filter shown (all (passed (stateAfterUpdate (stateRef hookABC) [showB])))
       = [VStr "a"; VStr "b"; VStr "c"]
     ∧ field <$> visible (passed (stateAfterUpdate (stateRef hookABC) [showB]))
       = [VStr "a"; VStr "c"]
     ∧ ¬ consistent (passed (stateAfterUpdate (stateRef hookABC) [showB])))
  ∧ (consistent (stateRef (run sampleColDef hookABC (take 1 sortThenRemove)))
     ∧ consistent (stateRef (run sampleColDef hookABC (take 2 sortThenRemove)))
     ∧ field <$> all (stateRef (run sampleColDef hookABC sortThenRemove))
       = [VStr "b"; VStr "c"]
     ∧ is_Some (lookup (stateRef (run sampleColDef hookABC sortThenRemove)) !! "a")
     ∧ ¬ consistent (stateRef (run sampleColDef hookABC sortThenRemove))).
Proof.
  split_and!.
  - intros apiRef h col Hp before after.
    destruct (stateAfterUpdate_first (stateRef h) col []) as (Ha & Hl & Hv & Hm & _).
    assert (passedMinusOne before = None) as Hminus.
    { unfold before. rewrite stateAfterUpdate_minus_one.
      by destruct (present_find _ _ Hp) as (i & c & ->). }
    assert (visible after = filter shown (all (passed before))) as Hvis.
    { unfold before. rewrite Ha. apply filterVisible_shown. }
    split_and!; try done.
    intros Hchange.
    assert (visible (passed before) ≠ filter shown (all (passed before))) as Hne.
    { unfold before at 1. rewrite Hv, <- Hvis. congruence. }
    split; [exact Hne|]. by intros (Hc & _).
  - apply resetState_consistent.
  - apply stateABC_showB_valid.
  - apply getUpdatedColumnState_consistent;
      [apply resetState_consistent | apply stateABC_showB_valid].
  - by vm_compute.
  - by vm_compute.
  - intros (Hc & _). vm_compute in Hc. discriminate.
  - apply getUpdatedColumnState_consistent; [apply resetState_consistent|].
    split.
    + apply (bool_decide_unpack (NoDup (keyOf <$> all (stateRef hookABC)))). by vm_compute.
    + constructor; [|constructor].
      exists (spread (sampleColDef VUndefined) colA). split; [|by vm_compute].
      apply list_elem_of_lookup. by exists 0%nat.
  - apply resetState_consistent.
  - by vm_compute.
  - vm_compute. by eexists.
  - intros (_ & _ & _ & H). specialize (H "a"). vm_compute in H. discriminate.
Qed.

Lemma committed_state_left_partial_witness :
  present (all (stateRef hookABC)) showB
  ∧ all (passed (stateAfterUpdate (stateRef hookABC) [showB]))
    = all (stateRef (updateColumn None showB hookABC))
  ∧ visible (passed (stateAfterUpdate (stateRef hookABC) [showB])) = visible (stateRef hookABC)
  ∧ visible (passed (stateAfterUpdate (stateRef hookABC) [showB]))
    ≠ filter shown (all (passed (stateAfterUpdate (stateRef hookABC) [showB]))).
Proof.
  assert (present (all (stateRef hookABC)) showB) as Hp.
  { exists (spread (sampleColDef VUndefined) colB). split; [|by vm_compute].
    apply list_elem_of_lookup. by exists 1%nat. }
  split; [exact Hp|].
  destruct committed_state_left_partial as (Hgen & _).
  destruct (Hgen None hookABC showB Hp) as (Ha & _ & _ & Hv & _ & Hstale).
  split; [exact Ha|]. split; [exact Hv|].
  apply Hstale. by vm_compute.
Defined.

(** Patches that the caller is asked not to send also break the lookup: one
    for a field no column has leaves an entry that the full collection does
    not have; one for a field two columns share files the first of them
    where the fold of the collection files the last. *)
Lemma patch_can_break_lookup :
  (consistent stateABC
   ∧ ¬ consistent (stateRef (updateColumn None patchZ
         (mount sampleColDef checkboxColumn [colA; colB; colC] checkboxOff None))))
  ∧ (consistent stateAA
     ∧ ¬ consistent (stateRef (updateColumn None widenA
           (mount sampleColDef checkboxColumn [colA; colA'] checkboxOff None)))).
Proof.
  split; (split; [apply resetState_consistent|]).
  - intros (_ & _ & _ & H). specialize (H "z"). vm_compute in H. discriminate.
  - intros (_ & _ & _ & H). specialize (H "a"). vm_compute in H. discriminate.
Qed.

(** ** The [COLUMNS_UPDATED] event *)

Lemma onSortedColumns_emitted apiRef sortModel h :
  emitted (onSortedColumns apiRef sortModel h) = emitted h.
Proof.
  unfold onSortedColumns. destruct (sortUpdates _ _) as [fields updatedCols].
  simpl. destruct (bool_decide (0 < _)%nat); simpl; [|done].
  by rewrite andb_false_r.
Qed.

Lemma step_emitted getColDef h e :
  emitted (step getColDef h e)
  = if emits e then emitted h ++ [all (stateRef (step getColDef h e))] else emitted h.
Proof.
  destruct e as [columns options apiRef | columns options [api|] | apiRef col
                 | apiRef cols | apiRef sortModel]; simpl;
    rewrite ?andb_false_r; try done.
  apply onSortedColumns_emitted.
Qed.

Lemma run_emitted_length getColDef es : ∀ h,
  length (emitted (run getColDef h es))
  = (length (emitted h) + length (filter (λ e, Is_true (emits e)) es))%nat.
Proof.
  induction es as [|e es IH]; intros h; [simpl; lia|].
  change (run getColDef h (e :: es)) with (run getColDef (step getColDef h e) es).
  rewrite IH, step_emitted, filter_cons.
  destruct (emits e); simpl; rewrite ?length_app; simpl; lia.
Qed.

(** C8 (as amended). The effect on a change of the input columns or of the
    grid options recomputes the state with [resetState] and commits it; it
    emits one [COLUMNS_UPDATED] event carrying the full hydrated column
    list when [apiRef.current] is set, and nothing when it is not. The
    render, [updateColumn], [updateColumns] and the reaction to a sort model
    never emit, whether they commit a state or not. So along any sequence
    of events the events emitted are, in number and order, the input
    changes met while the handle was set. *)
Theorem columns_updated_emission (getColDef : val → ColDef) (h : hook) :
  (∀ columns options api,
     let h' := columnsEffect getColDef columns options (Some api) h in
     stateRef h' = resetState getColDef (checkboxSelectionColDef h) columns options (Some api)
     ∧ emitted h'
       = emitted h ++ [hydrateColumns getColDef (checkboxSelectionColDef h) columns options (Some api)])
  ∧ (∀ columns options,
       let h' := columnsEffect getColDef columns options None h in
       stateRef h' = resetState getColDef (checkboxSelectionColDef h) columns options None
       ∧ emitted h' = emitted h)
  ∧ (∀ apiRef col,
       stateRef (updateColumn apiRef col h) = getUpdatedColumnState (stateRef h) [col]
       ∧ emitted (updateColumn apiRef col h) = emitted h)
  ∧ (∀ apiRef cols,
       stateRef (updateColumns apiRef cols h) = getUpdatedColumnState (stateRef h) cols
       ∧ emitted (updateColumns apiRef cols h) = emitted h)
  ∧ (∀ apiRef sortModel, emitted (onSortedColumns apiRef sortModel h) = emitted h)
  ∧ (∀ columns options apiRef,
       emitted (renderMemo getColDef columns options apiRef h) = emitted h)
  ∧ (∀ es, length (emitted (run getColDef h es))
           = (length (emitted h) + length (filter (λ e, Is_true (emits e)) es))%nat).
Proof.
  split_and!.
  - done.
  - done.
  - intros apiRef col. simpl. by rewrite andb_false_r.
  - intros apiRef cols. simpl. by rewrite andb_false_r.
  - intros. apply onSortedColumns_emitted.
  - done.
  - intros. apply run_emitted_length.
Qed.

(** C8 as stated fails: an input change met while [apiRef.current] is not
    set recomputes and commits the state and emits nothing. *)
Lemma input_change_without_api_is_silent :
  let h := mount sampleColDef checkboxColumn [colA] checkboxOff None in
  let h' := columnsEffect sampleColDef [colA; colB; colC] checkboxOff None h in
  stateRef h' = resetState sampleColDef checkboxColumn [colA; colB; colC] checkboxOff None
  ∧ stateRef h' ≠ stateRef h
  ∧ setStateCalls h' = S (setStateCalls h)
  ∧ emitted h' = [].
Proof. split_and!; [done | by vm_compute | done | done]. Qed.

(** ** Index and position of a visible column *)

(** The two outcomes of the search of [getColumnIndex]. *)
Lemma getColumnIndex_cases (h : hook) (fld : string) :
  ((∀ c, c ∈ visible (stateRef h) → field c ≠ VStr fld)
   ∧ getColumnIndex fld h = -1
   ∧ getColumnPosition fld h = None)
  ∨ (∃ (i : nat) (c : ColDef),
       visible (stateRef h) !! i = Some c
       ∧ field c = VStr fld
       ∧ (∀ j c', (j < i)%nat → visible (stateRef h) !! j = Some c' → field c' ≠ VStr fld)
       ∧ getColumnIndex fld h = Z.of_nat i
       ∧ getColumnPosition fld h = positions (meta (stateRef h)) !! i
       ∧ (consistent (stateRef h) →
            getColumnPosition fld h = Some (sumWidths (take i (visible (stateRef h)))))).
Proof.
  unfold getColumnPosition, getColumnIndex.
  destruct (list_find (λ c, Is_true (strict_eq (field c) (VStr fld))) (visible (stateRef h)))
    as [[i c]|] eqn:Hfind.
  - right. exists i, c.
    destruct (findIndex_found _ _ _ _ Hfind) as (Hidx & _ & _).
    apply list_find_Some in Hfind as (Hi & Hf & Hfirst). apply strict_eq_true in Hf.
    rewrite Hidx. unfold at_index. rewrite decide_True by lia. rewrite Nat2Z.id.
    split_and!; try done.
    + intros j c' Hj Hc' Hfc'. eapply Hfirst; [done.. | by apply strict_eq_true].
    + intros (_ & _ & Hpos & _). rewrite Hpos, list_lookup_fmap.
      rewrite lookup_seq_lt; [done|]. by eapply lookup_lt_Some.
  - left. destruct (findIndex_missing _ _ Hfind) as (Hidx & _ & _).
    split_and!; [| done | by rewrite Hidx].
    intros c Hc Hf. eapply list_find_None in Hfind.
    rewrite Forall_forall in Hfind. apply (Hfind c Hc). by apply strict_eq_true.
Qed.

(** Absent or hidden: in a consistent state, a field all of whose columns are
    hidden or unidentified (or that no column has) is not found. *)
Lemma getColumnIndex_hidden (h : hook) (fld : string) :
  consistent (stateRef h) →
  (∀ c, c ∈ all (stateRef h) → field c = VStr fld → ¬ shown c) →
  getColumnIndex fld h = -1 ∧ getColumnPosition fld h = None.
Proof.
  intros (Hv & _) Hhid.
  assert (list_find (λ c, Is_true (strict_eq (field c) (VStr fld))) (visible (stateRef h)) = None)
    as Hfind.
  { apply list_find_None, Forall_forall. intros c Hc Hf. apply strict_eq_true in Hf.
    rewrite Hv in Hc. apply list_elem_of_filter in Hc as [Hs Hc]. by eapply Hhid. }
  destruct (findIndex_missing _ _ Hfind) as (Hidx & _ & _).
  unfold getColumnPosition, getColumnIndex. by rewrite Hidx.
Qed.

(** C9. [getColumnIndex] is the linear search of the visible collection for
    the field identifier: either no visible column has it, and the index is
    -1 and the position [undefined]; or the index is that of the first
    visible column with it, and the position is [positions] at that index
    (in a consistent state, the sum of the widths of the visible columns
    before it). In a consistent state a field that no column has, or whose
    columns are all hidden, gives -1 and [undefined]. *)
Theorem column_index_and_position (h : hook) (fld : string) :
  (((∀ c, c ∈ visible (stateRef h) → field c ≠ VStr fld)
    ∧ getColumnIndex fld h = -1
    ∧ getColumnPosition fld h = None)
   ∨ (∃ (i : nat) (c : ColDef),
        visible (stateRef h) !! i = Some c
        ∧ field c = VStr fld
        ∧ (∀ j c', (j < i)%nat → visible (stateRef h) !! j = Some c' → field c' ≠ VStr fld)
        ∧ getColumnIndex fld h = Z.of_nat i
        ∧ getColumnPosition fld h = positions (meta (stateRef h)) !! i
        ∧ (consistent (stateRef h) →
             getColumnPosition fld h = Some (sumWidths (take i (visible (stateRef h)))))))
  ∧ (consistent (stateRef h) →
     (∀ c, c ∈ all (stateRef h) → field c = VStr fld → ¬ shown c) →
     getColumnIndex fld h = -1 ∧ getColumnPosition fld h = None).
Proof.
  split; [apply getColumnIndex_cases | apply getColumnIndex_hidden].
Qed.

Lemma column_index_and_position_witness :
  let h := mount sampleColDef checkboxColumn [colA; colB; colC] checkboxOff None in
  (getColumnIndex "b" h = -1 ∧ getColumnPosition "b" h = None)
  ∧ getColumnIndex "c" h = 1 ∧ getColumnPosition "c" h = Some (Num 100).
Proof.
  intros h. split; [|by vm_compute].
  apply (column_index_and_position h "b").
  - apply resetState_consistent.
  - intros c Hc Hf (_ & _ & Hh).
    apply list_elem_of_lookup in Hc as [i Hi].
    destruct i as [|[|[|i]]]; simpl in Hi; [| |..]; try discriminate;
      injection Hi as <-; vm_compute in Hf, Hh; discriminate.
Defined.

(** ** Hydration *)

Lemma mapColumns_eq getColDef checkboxObj columns options :
  mapColumns getColDef checkboxObj columns options
  = (if checkboxSelection options then [checkboxObj] else [])
    ++ map (λ c, spread (getColDef (get c "type")) c) columns.
Proof. unfold mapColumns. by destruct (checkboxSelection options). Qed.

(** The first loop, through the references into [mappedCols]. *)
Lemma setMissingSortIndex_refs rest : ∀ pre idx,
  forEachFrom setMissingSortIndex idx
    (refsFrom (λ c, negb (is_nullish (sortDirection c))) (length pre) rest) (pre ++ rest)
  = pre ++ withSortIndexes idx rest.
Proof.
  induction rest as [|c rest IH]; intros pre idx; [done|].
  simpl. unfold sorted. destruct (negb (is_nullish (sortDirection c))) eqn:Hs.
  - simpl. unfold setMissingSortIndex at 2.
    rewrite list_lookup_middle by done.
    destruct (is_nullish (sortIndex c)).
    + replace (<[length pre := _]> (pre ++ c :: rest))
        with ((pre ++ [assign "sortIndex" (VNum (Z.of_nat idx + 1)) c]) ++ rest).
      * specialize (IH (pre ++ [assign "sortIndex" (VNum (Z.of_nat idx + 1)) c]) (S idx)).
        rewrite length_app in IH. simpl in IH.
        replace (length pre + 1)%nat with (S (length pre)) in IH by lia.
        rewrite IH. by rewrite <- app_assoc.
      * rewrite <- app_assoc. simpl.
        rewrite insert_app_r_alt, Nat.sub_diag by lia. done.
    + specialize (IH (pre ++ [c]) (S idx)).
      rewrite length_app in IH. simpl in IH.
      replace (length pre + 1)%nat with (S (length pre)) in IH by lia.
      rewrite <- app_assoc in IH. simpl in IH. rewrite IH. by rewrite <- app_assoc.
  - specialize (IH (pre ++ [c]) idx).
    rewrite length_app in IH. simpl in IH.
    replace (length pre + 1)%nat with (S (length pre)) in IH by lia.
    rewrite <- app_assoc in IH. simpl in IH. rewrite IH. by rewrite <- app_assoc.
Qed.

Lemma assignSortIndexes_eq (apiRef : option GridApi) mappedCols :
  assignSortIndexes apiRef mappedCols
  = if bool_decide (is_Some apiRef) then withSortIndexes 0 mappedCols else mappedCols.
Proof.
  unfold assignSortIndexes, filterRefs, forEach.
  pose proof (setMissingSortIndex_refs mappedCols [] 0%nat) as H. simpl in H.
  destruct (bool_decide (is_Some apiRef)); [|by rewrite andb_false_r].
  rewrite andb_true_r. case_bool_decide as Hlen; [done|].
  destruct (refsFrom _ 0 mappedCols); [done | simpl in Hlen; lia].
Qed.

Lemma withSortIndexes_lookup cols : ∀ idx j,
  withSortIndexes idx cols !! j
  = (λ c, if sorted c && is_nullish (sortIndex c)
          then assign "sortIndex" (VNum (Z.of_nat (idx + sortedBefore cols j) + 1)) c
          else c) <$> cols !! j.
Proof.
  induction cols as [|c cols IH]; intros idx j; [done|].
  destruct j as [|j].
  - simpl. unfold sortedBefore. simpl. rewrite Nat.add_0_r.
    destruct (sorted c); [|done]. by destruct (is_nullish (sortIndex c)).
  - unfold sortedBefore. simpl. rewrite filter_cons.
    destruct (sorted c) eqn:Hs; simpl.
    + rewrite IH. unfold sortedBefore.
      by replace (S idx + length (filter (λ c, Is_true (sorted c)) (take j cols)))%nat
        with (idx + S (length (filter (λ c, Is_true (sorted c)) (take j cols))))%nat by lia.
    + by rewrite IH.
Qed.

Lemma withSortIndexes_length cols : ∀ idx, length (withSortIndexes idx cols) = length cols.
Proof.
  induction cols as [|c cols IH]; intros idx; [done|].
  simpl. destruct (sorted c); simpl; by rewrite IH.
Qed.

Lemma firstIndex_Some fields v j :
  firstIndex fields v = Some j
  ↔ fields !! j = Some v ∧ ∀ j', (j' < j)%nat → fields !! j' ≠ Some v.
Proof.
  unfold firstIndex. split.
  - destruct (list_find _ fields) as [[i x]|] eqn:H; [|done].
    simpl. intros [= <-]. apply list_find_Some in H as (Hi & -> & Hfirst).
    split; [done|]. intros j' Hj' Hv. by eapply Hfirst.
  - intros [Hj Hfirst].
    assert (list_find (λ f, f = v) fields = Some (j, v)) as ->; [|done].
    apply list_find_Some. split_and!; [done.. |].
    intros j' y Hy Hlt ->. by eapply Hfirst.
Qed.

Lemma firstAt_firstOfField cols j c :
  cols !! j = Some c → (Is_true (firstAt cols j c) ↔ firstOfField cols j c).
Proof.
  intros Hj. unfold firstAt, firstOfField.
  rewrite bool_decide_spec, firstIndex_Some, list_lookup_fmap, Hj. simpl. split.
  - intros [_ H] j' c' Hlt Hc' Hf. apply (H j' Hlt).
    by rewrite list_lookup_fmap, Hc', <- Hf.
  - intros H. split; [done|]. intros j' Hlt Hf.
    rewrite list_lookup_fmap in Hf.
    destruct (cols !! j') as [c'|] eqn:Hc'; [|done].
    simpl in Hf. injection Hf as Hf. by eapply H.
Qed.

Lemma field_annotateWith len e idx col : field (annotateWith len e idx col) = field col.
Proof. unfold annotateWith, field. by rewrite !get_assign_ne. Qed.

Lemma applySortItem_lookup len e idx cols j :
  applySortItem len e idx cols !! j
  = (λ c, if firstAt cols j c && strict_eq (field c) (VStr (colId e))
          then annotateWith len e idx c else c) <$> cols !! j.
Proof.
  unfold applySortItem.
  destruct (list_find _ cols) as [[r col]|] eqn:Hfind.
  - apply list_find_Some in Hfind as (Hr & Hf & Hfirst).
    fold (annotateWith len e idx col).
    destruct (decide (j = r)) as [->|Hne].
    + rewrite list_lookup_insert_eq by (by eapply lookup_lt_Some). rewrite Hr. simpl.
      assert (Is_true (firstAt cols r col)) as H1.
      { apply firstAt_firstOfField; [done|]. intros j' c' Hlt Hc' Hfc.
        eapply Hfirst; [done.. |]. apply strict_eq_true. apply strict_eq_true in Hf.
        congruence. }
      destruct (firstAt cols r col); [|done].
      by destruct (strict_eq (field col) (VStr (colId e))).
    + rewrite list_lookup_insert_ne by done.
      destruct (cols !! j) as [c|] eqn:Hj; [|done]. simpl. f_equal.
      destruct (firstAt cols j c) eqn:H1; [|done].
      destruct (strict_eq (field c) (VStr (colId e))) eqn:H2; [|done]. exfalso.
      assert (Is_true (firstAt cols j c)) as H1' by (by rewrite H1).
      apply firstAt_firstOfField in H1'; [|done].
      assert (field c = VStr (colId e)) as Hc by (apply strict_eq_true; by rewrite H2).
      apply strict_eq_true in Hf.
      destruct (Nat.lt_trichotomy j r) as [Hlt|[?|Hlt]]; [|done|].
      * eapply Hfirst; [exact Hj | done | by rewrite H2].
      * eapply H1'; [exact Hlt | exact Hr | congruence].
  - destruct (cols !! j) as [c|] eqn:Hj; [|done]. simpl. f_equal.
    eapply list_find_None in Hfind. rewrite Forall_forall in Hfind.
    specialize (Hfind c (list_elem_of_lookup_2 _ _ _ Hj)).
    destruct (strict_eq (field c) (VStr (colId e))); [by destruct Hfind|].
    by rewrite andb_false_r.
Qed.

Lemma applySortItem_fields len e idx cols :
  field <$> applySortItem len e idx cols = field <$> cols.
Proof.
  apply list_eq. intros j. rewrite !list_lookup_fmap, applySortItem_lookup.
  destruct (cols !! j) as [c|]; [|done]. simpl. f_equal.
  destruct (_ && _); [apply field_annotateWith | done].
Qed.

Lemma annotate_cons len e model idx (c : ColDef) :
  annotate len (e :: model) idx c
  = annotate len model (S idx)
      (if strict_eq (field c) (VStr (colId e)) then annotateWith len e idx c else c).
Proof. done. Qed.

Lemma annotate_app len m1 m2 idx (c : ColDef) :
  annotate len (m1 ++ m2) idx c = annotate len m2 (idx + length m1) (annotate len m1 idx c).
Proof. unfold annotate. apply forEachFrom_app. Qed.

(** The second loop, column by column: the first column of each field
    identifier is annotated by the entries naming it, the others are left
    alone. *)
Lemma applySortItems_lookup len model : ∀ idx cols j,
  forEachFrom (applySortItem len) idx model cols !! j
  = (λ c, if firstAt cols j c then annotate len model idx c else c) <$> cols !! j.
Proof.
  induction model as [|e model IH]; intros idx cols j.
  - simpl. destruct (cols !! j) as [c|]; [|done]. simpl. by destruct (firstAt cols j c).
  - simpl. rewrite IH, applySortItem_lookup.
    destruct (cols !! j) as [c|]; [|done]. simpl. f_equal.
    unfold firstAt. rewrite applySortItem_fields. fold (firstAt cols j c).
    destruct (firstAt cols j c) eqn:H1; simpl.
    + unfold firstAt.
      destruct (strict_eq (field c) (VStr (colId e))) eqn:H2.
      * rewrite field_annotateWith. fold (firstAt cols j c). rewrite H1.
        by rewrite annotate_cons, H2.
      * fold (firstAt cols j c). rewrite H1. by rewrite annotate_cons, H2.
    + unfold firstAt. fold (firstAt cols j c). by rewrite H1.
Qed.

Lemma applySortItems_length len model : ∀ idx cols,
  length (forEachFrom (applySortItem len) idx model cols) = length cols.
Proof.
  induction model as [|e model IH]; intros idx cols; [done|].
  simpl. rewrite IH.
  rewrite <- (length_fmap field), applySortItem_fields. by rewrite length_fmap.
Qed.

(** What the entries of a sort model leave of a column. *)
Lemma annotate_keeps len model : ∀ idx (c : ColDef),
  field (annotate len model idx c) = field c
  ∧ ∀ k, k ≠ "sortDirection" → k ≠ "sortIndex" → annotate len model idx c !! k = c !! k.
Proof.
  induction model as [|e model IH]; intros idx c; [done|].
  rewrite annotate_cons.
  destruct (strict_eq (field c) (VStr (colId e))); [|apply IH].
  destruct (IH (S idx) (annotateWith len e idx c)) as [Hf Hk]. split.
  - by rewrite Hf, field_annotateWith.
  - intros k H1 H2. rewrite Hk by done. unfold annotateWith.
    by rewrite !lookup_assign_ne.
Qed.

Lemma annotate_unmatched len model : ∀ idx (c : ColDef),
  unmatched model c → annotate len model idx c = c.
Proof.
  induction model as [|e model IH]; intros idx c Hu; [done|].
  rewrite annotate_cons.
  assert (strict_eq (field c) (VStr (colId e)) = false) as ->.
  { apply not_true_is_false. intros H.
    apply (Hu e); [left | apply strict_eq_true; by rewrite H]. }
  apply IH. intros e' He'. apply Hu. by right.
Qed.

Lemma annotate_last len model idx0 idx e (c : ColDef) :
  lastEntryFor model idx e c →
  sortDirection (annotate len model idx0 c) = sort e
  ∧ sortIndex (annotate len model idx0 c)
    = if bool_decide (1 < len)%nat then VNum (Z.of_nat (idx0 + idx) + 1) else VUndefined.
Proof.
  intros (Hidx & Hf & Hlater).
  assert (length (take idx model) = idx) as Hlen.
  { apply length_take_le. apply lookup_lt_Some in Hidx. lia. }
  pose proof (take_drop_middle model idx e Hidx) as E.
  assert (unmatched (drop (S idx) model) c) as Hu.
  { intros e' He'. apply list_elem_of_lookup in He' as [i Hi].
    rewrite lookup_drop in Hi. eapply (Hlater (S idx + i)%nat); [lia | done]. }
  revert Hlen E Hu. generalize (take idx model) (drop (S idx) model).
  intros m1 m2 Hlen E Hu. subst model idx.
  rewrite annotate_app, annotate_cons.
  destruct (annotate_keeps len m1 idx0 c) as [Hf1 _].
  assert (strict_eq (field (annotate len m1 idx0 c)) (VStr (colId e)) = true) as ->.
  { apply Is_true_eq_true, strict_eq_true. congruence. }
  rewrite annotate_unmatched.
  - unfold annotateWith, sortDirection, sortIndex.
    by rewrite get_assign_eq, get_assign_ne, get_assign_eq.
  - intros e' He'. rewrite field_annotateWith, Hf1. by apply Hu.
Qed.

Lemma field_indexed cols j c : field (indexed cols j c) = field c.
Proof.
  unfold indexed. destruct (_ && _); [|done]. unfold field. by rewrite get_assign_ne.
Qed.

Lemma indexed_keeps cols j (c : ColDef) k : k ≠ "sortIndex" → indexed cols j c !! k = c !! k.
Proof.
  intros Hk. unfold indexed. destruct (_ && _); [|done]. by rewrite lookup_assign_ne.
Qed.

Lemma withSortIndexes_indexed cols j :
  withSortIndexes 0 cols !! j = indexed cols j <$> cols !! j.
Proof. by rewrite withSortIndexes_lookup. Qed.

Lemma withSortIndexes_fields cols : field <$> withSortIndexes 0 cols = field <$> cols.
Proof.
  apply list_eq. intros j. rewrite !list_lookup_fmap, withSortIndexes_indexed.
  destruct (cols !! j) as [c|]; [|done]. simpl. by rewrite field_indexed.
Qed.

(** The result of [hydrateColumns] when the host handle is set, column by
    column. *)
Lemma hydrateColumns_lookup getColDef checkboxObj columns options api j :
  hydrateColumns getColDef checkboxObj columns options (Some api) !! j
  = (λ c,
       let c1 := indexed (mapColumns getColDef checkboxObj columns options) j c in
       match getSortModel api with
       | Some model =>
           if firstAt (mapColumns getColDef checkboxObj columns options) j c
           then annotate (length model) model 0 c1 else c1
       | None => c1
       end)
    <$> mapColumns getColDef checkboxObj columns options !! j.
Proof.
  unfold hydrateColumns. generalize (mapColumns getColDef checkboxObj columns options).
  intros mapped. rewrite assignSortIndexes_eq.
  rewrite bool_decide_eq_true_2 by done. unfold applySortModel.
  destruct (getSortModel api) as [model|].
  - unfold forEach. rewrite applySortItems_lookup, withSortIndexes_indexed.
    destruct (mapped !! j) as [c|]; [|done]. simpl. f_equal.
    unfold firstAt. by rewrite withSortIndexes_fields, field_indexed.
  - apply withSortIndexes_indexed.
Qed.

Lemma hydrateColumns_None getColDef checkboxObj columns options :
  hydrateColumns getColDef checkboxObj columns options None
  = mapColumns getColDef checkboxObj columns options.
Proof.
  unfold hydrateColumns. rewrite assignSortIndexes_eq.
  by rewrite bool_decide_eq_false_2 by (by intros [? ?]).
Qed.

(** Whatever the host handle, hydration keeps the number of columns and, in
    each column, every key but the two sort keys. *)
Lemma hydrateColumns_keeps getColDef checkboxObj columns options apiRef :
  let mapped := mapColumns getColDef checkboxObj columns options in
  let out := hydrateColumns getColDef checkboxObj columns options apiRef in
  length out = length mapped
  ∧ ∀ j c, mapped !! j = Some c →
      ∃ c', out !! j = Some c'
        ∧ ∀ k, k ≠ "sortDirection" → k ≠ "sortIndex" → c' !! k = c !! k.
Proof.
  intros mapped out. destruct apiRef as [api|].
  - assert (∀ j c, mapped !! j = Some c →
      ∃ c', out !! j = Some c'
        ∧ ∀ k, k ≠ "sortDirection" → k ≠ "sortIndex" → c' !! k = c !! k) as Hpt.
    { intros j c Hj. unfold out. rewrite hydrateColumns_lookup. fold mapped. rewrite Hj.
      simpl. eexists. split; [done|]. intros k H1 H2.
      destruct (getSortModel api) as [model|]; [|by apply indexed_keeps].
      destruct (firstAt mapped j c); [|by apply indexed_keeps].
      destruct (annotate_keeps (length model) model 0 (indexed mapped j c)) as [_ Hk].
      rewrite Hk by done. by apply indexed_keeps. }
    split; [|exact Hpt].
    destruct (Nat.lt_trichotomy (length out) (length mapped)) as [Hlt|[?|Hlt]]; [|done|].
    + destruct (lookup_lt_is_Some_2 mapped (length out)) as [c Hc]; [lia|].
      destruct (Hpt _ _ Hc) as (c' & Hc' & _). apply lookup_lt_Some in Hc'. lia.
    + destruct (lookup_lt_is_Some_2 out (length mapped)) as [c Hc]; [lia|].
      unfold out in Hc. rewrite hydrateColumns_lookup in Hc. fold mapped in Hc.
      rewrite (lookup_ge_None_2 mapped (length mapped)) in Hc by lia. done.
  - unfold out. rewrite hydrateColumns_None. split; [done|]. intros j c Hj. by exists c.
Qed.

(** C2 (as amended). With the host handle set, hydration goes through the
    merged columns in order and gives every column that carries a sort
    direction and no sort index its 1-based rank among the columns carrying
    a sort direction; then, if the handle has a sort model, the first column
    of each field identifier named by the model takes the sort direction of
    the last entry naming it, and as sort index that entry's 1-based
    position when the model has more than one entry and [undefined]
    otherwise. Every other key of every column is untouched. Without the
    host handle, hydration assigns no index and applies no sort model. *)
Theorem hydrate_sort_annotations (getColDef : val → ColDef) (checkboxObj : ColDef)
    (columns : list ColDef) (options : GridOptions) :
  let mapped := mapColumns getColDef checkboxObj columns options in
  hydrateColumns getColDef checkboxObj columns options None = mapped
  ∧ ∀ api : GridApi,
      let out := hydrateColumns getColDef checkboxObj columns options (Some api) in
      length out = length mapped
      ∧ ∀ (j : nat) (c : ColDef), mapped !! j = Some c →
          ∃ c', out !! j = Some c'
            ∧ (∀ k, k ≠ "sortDirection" → k ≠ "sortIndex" → c' !! k = c !! k)
            ∧ (∀ model idx e,
                 getSortModel api = Some model →
                 firstOfField mapped j c →
                 lastEntryFor model idx e c →
                 sortDirection c' = sort e
                 ∧ sortIndex c'
                   = if bool_decide (1 < length model)%nat
                     then VNum (Z.of_nat idx + 1) else VUndefined)
            ∧ (getSortModel api = None
               ∨ (∃ model, getSortModel api = Some model ∧ unmatched model c)
               ∨ ¬ firstOfField mapped j c →
               sortDirection c' = sortDirection c
               ∧ sortIndex c'
                 = if sorted c && is_nullish (sortIndex c)
                   then VNum (Z.of_nat (sortedBefore mapped j) + 1) else sortIndex c).
Proof.
  intros mapped. split; [apply hydrateColumns_None|]. intros api out.
  destruct (hydrateColumns_keeps getColDef checkboxObj columns options (Some api))
    as [Hlen Hkeep].
  split; [exact Hlen|]. intros j c Hj.
  destruct (Hkeep j c Hj) as (c' & Hc' & Hk).
  exists c'. split; [exact Hc'|]. split; [exact Hk|].
  unfold out in Hc'. rewrite hydrateColumns_lookup in Hc'. fold mapped in Hc'.
  rewrite Hj in Hc'. simpl in Hc'. injection Hc' as Hc'.
  assert (sortDirection (indexed mapped j c) = sortDirection c
          ∧ sortIndex (indexed mapped j c)
            = if sorted c && is_nullish (sortIndex c)
              then VNum (Z.of_nat (sortedBefore mapped j) + 1) else sortIndex c) as Hplain.
  { unfold indexed. destruct (sorted c && is_nullish (sortIndex c)); [|done].
    unfold sortDirection, sortIndex. by rewrite get_assign_ne, get_assign_eq. }
  split.
  - intros model idx e Hm Hfirst Hlast. rewrite Hm in Hc'.
    apply (firstAt_firstOfField _ _ _ Hj) in Hfirst.
    destruct (firstAt mapped j c); [|done]. subst c'.
    apply (annotate_last (length model) model 0 idx e).
    destruct Hlast as (H1 & H2 & H3). split_and!; [done | | ].
    + by rewrite field_indexed.
    + intros idx' e' Hlt He'. rewrite field_indexed. by eapply H3.
  - intros [Hnone | [(model & Hm & Hu) | Hnf]].
    + rewrite Hnone in Hc'. by subst c'.
    + rewrite Hm in Hc'. destruct (firstAt mapped j c).
      * rewrite annotate_unmatched in Hc'; [by subst c'|].
        intros e He. rewrite field_indexed. by apply Hu.
      * by subst c'.
    + assert (firstAt mapped j c = false) as Hf.
      { apply not_true_is_false. intros H. apply Hnf.
        apply (firstAt_firstOfField _ _ _ Hj). by rewrite H. }
      rewrite Hf in Hc'. destruct (getSortModel api); by subst c'.
Qed.

Lemma hydrate_sort_annotations_witness :
  let out := hydrateColumns sampleColDef checkboxColumn [colC; sortedA] checkboxOff (Some apiSortA) in
  ∃ c', out !! 1%nat = Some c'
    ∧ sortDirection c' = VStr "desc"
    ∧ sortIndex c' = VUndefined
    ∧ c' !! "field" = Some (VStr "a").
Proof.
  intros out.
  destruct (hydrate_sort_annotations sampleColDef checkboxColumn [colC; sortedA] checkboxOff)
    as [_ H].
  destruct (H apiSortA) as [_ Hpt].
  destruct (Hpt 1%nat (spread (sampleColDef VUndefined) sortedA) eq_refl)
    as (c' & Hc' & Hk & Hmatch & _).
  exists c'. split; [exact Hc'|].
  destruct (Hmatch [ {| colId := "a"; sort := VStr "desc" |} ] 0%nat
              {| colId := "a"; sort := VStr "desc" |} eq_refl) as [Hd Hi].
  - intros j' x Hlt Hx. destruct j' as [|j']; [|lia].
    injection Hx as <-. by vm_compute.
  - split_and!; [done | by vm_compute |]. intros idx' e' Hlt He'.
    destruct idx' as [|idx']; [lia | done].
  - split; [exact Hd|]. split; [exact Hi|]. by rewrite Hk.
Defined.

(** C2 as stated fails. Without the host handle a column that carries a sort
    direction and no sort index gets none; and of two columns with one field
    identifier only the first takes the annotation of the sort model. *)
Lemma hydrate_annotation_gaps :
  (∃ c, hydrateColumns sampleColDef checkboxColumn [sortedA] checkboxOff None = [c]
        ∧ sortDirection c = VStr "asc"
        ∧ c !! "sortIndex" = None)
  ∧ (∃ c1 c2,
       hydrateColumns sampleColDef checkboxColumn [colA; colA'] checkboxOff (Some apiSortA)
       = [c1; c2]
       ∧ field c2 = VStr "a"
       ∧ sortDirection c1 = VStr "desc"
       ∧ sortDirection c2 = VUndefined).
Proof.
  split.
  - eexists. split; [by vm_compute|]. by vm_compute.
  - eexists _, _. split; [by vm_compute|]. by vm_compute.
Qed.

(** C4. Hydration (lines 21 to 24) maps each input column to the merge of
    the default definition of its type with the column itself: under every
    key the merge has the value of the column if the column has the key,
    and that of the default otherwise. When the checkbox option is on, the
    checkbox column definition is put in front of the merged columns, once:
    there is one column more than in the input, the first is the checkbox
    definition, and the merged columns follow in the order of the input;
    when the option is off there are the merged columns and nothing else.
    The identifier of the checkbox column is reserved: when every input
    column supplies an identifier other than it, the checkbox column is the
    only column with that identifier. The sort annotations that
    follow (lines 25 to 44) keep the number and the order of these columns
    and, in each, every key but the two sort keys. *)
Theorem hydrate_merges_defaults (getColDef : val → ColDef) (checkboxObj : ColDef)
    (columns : list ColDef) (options : GridOptions) :
  let offset := if checkboxSelection options then 1%nat else 0%nat in
  let mapped := mapColumns getColDef checkboxObj columns options in
  length mapped = (offset + length columns)%nat
  ∧ (∀ (i : nat) (c : ColDef), columns !! i = Some c →
       ∃ c', mapped !! (offset + i)%nat = Some c'
         ∧ ∀ k, c' !! k = match c !! k with
                          | Some v => Some v
                          | None => getColDef (get c "type") !! k
                          end)
  ∧ (checkboxSelection options = true → mapped !! 0%nat = Some checkboxObj)
  ∧ (checkboxSelection options = true →
       (∀ c, c ∈ columns → ∃ f, c !! "field" = Some f ∧ f ≠ field checkboxObj) →
       ∀ j c', mapped !! j = Some c' → field c' = field checkboxObj → j = 0%nat)
  ∧ (∀ apiRef : option GridApi,
       let out := hydrateColumns getColDef checkboxObj columns options apiRef in
       length out = length mapped
       ∧ (apiRef = None → out = mapped)
       ∧ ∀ j c, mapped !! j = Some c →
           ∃ c', out !! j = Some c'
             ∧ ∀ k, k ≠ "sortDirection" → k ≠ "sortIndex" → c' !! k = c !! k).
Proof.
  intros offset mapped.
  pose proof (mapColumns_eq getColDef checkboxObj columns options) as Hmap. fold mapped in Hmap.
  assert (∀ i c, columns !! i = Some c →
            mapped !! (offset + i)%nat = Some (spread (getColDef (get c "type")) c)) as Hcol.
  { intros i c Hi. rewrite Hmap. unfold offset.
    destruct (checkboxSelection options); simpl; by rewrite list_lookup_fmap, Hi. }
  assert (length mapped = (offset + length columns)%nat) as Hlen.
  { rewrite Hmap, length_app, length_map. unfold offset.
    by destruct (checkboxSelection options). }
  split; [exact Hlen|].
  split.
  { intros i c Hi. eexists. split; [by apply Hcol|]. intros k. apply spread_lookup. }
  split. { intros Hcb. by rewrite Hmap, Hcb. }
  split.
  { intros Hcb Hdistinct j c' Hj Hf.
    destruct j as [|j]; [done|]. exfalso.
    assert (j < length columns)%nat as Hlt.
    { apply lookup_lt_Some in Hj. rewrite Hlen in Hj. unfold offset in Hj.
      rewrite Hcb in Hj. lia. }
    destruct (lookup_lt_is_Some_2 columns j Hlt) as [c Hc].
    pose proof (Hcol j c Hc) as Hm. unfold offset in Hm. rewrite Hcb in Hm. simpl in Hm.
    rewrite Hj in Hm. injection Hm as ->.
    destruct (Hdistinct c (list_elem_of_lookup_2 _ _ _ Hc)) as (f & Hcf & Hne).
    apply Hne. rewrite <- Hf. unfold field at 1, get.
    by rewrite (get_spread_explicit _ _ _ _ Hcf). }
  intros apiRef out.
  destruct (hydrateColumns_keeps getColDef checkboxObj columns options apiRef) as [Hl Hkeep].
  split; [exact Hl|]. split; [intros ->; apply hydrateColumns_None | exact Hkeep].
Qed.

Lemma hydrate_merges_defaults_witness :
  let mapped := mapColumns sampleColDef checkboxColumn [colA; colNoWidth] checkboxOn in
  length mapped = 3%nat
  ∧ mapped !! 0%nat = Some checkboxColumn
  ∧ (∃ a, mapped !! 1%nat = Some a
          ∧ a !! "field" = Some (VStr "a") ∧ a !! "width" = Some (VNum 100))
  ∧ (∃ n, mapped !! 2%nat = Some n
          ∧ n !! "field" = Some (VStr "n") ∧ n !! "width" = sampleColDef VUndefined !! "width")
  ∧ (∀ j c', mapped !! j = Some c' → field c' = field checkboxColumn → j = 0%nat).
Proof.
  intros mapped.
  destruct (hydrate_merges_defaults sampleColDef checkboxColumn [colA; colNoWidth] checkboxOn)
    as (Hlen & Hmerge & Hhead & Hone & _).
  split; [exact Hlen|]. split; [by apply Hhead|].
  split.
  { destruct (Hmerge 0%nat colA eq_refl) as (a & Ha & Hk). exists a.
    split; [exact Ha|]. by rewrite !Hk. }
  split.
  { destruct (Hmerge 1%nat colNoWidth eq_refl) as (n & Hn & Hk). exists n.
    split; [exact Hn|]. by rewrite !Hk. }
  apply (Hone eq_refl). intros c Hc.
  apply list_elem_of_lookup in Hc as [i Hi].
  destruct i as [|[|i]]; simpl in Hi; try discriminate; injection Hi as <-.
  - exists (VStr "a"). split; [done | by vm_compute].
  - exists (VStr "n"). split; [done | by vm_compute].
Defined.

(** ** Number of visible columns *)

Lemma filterVisible_all cols :
  Forall (λ c, Is_true (isVisible c)) cols → filterVisible cols = cols.
Proof.
  unfold filterVisible. induction 1 as [|c cols Hc _ IH]; [done|].
  rewrite filter_cons, decide_True by done. by rewrite IH.
Qed.

Lemma filterVisible_length_pointwise (out : list ColDef) : ∀ mapped : list ColDef,
  length out = length mapped →
  (∀ j c, mapped !! j = Some c → ∃ c', out !! j = Some c' ∧ isVisible c' = isVisible c) →
  length (filterVisible out) = length (filterVisible mapped).
Proof.
  unfold filterVisible.
  induction out as [|c' out IH]; intros [|c mapped] Hlen Hpt; try done.
  destruct (Hpt 0%nat c eq_refl) as (c'' & [= <-] & Hv).
  rewrite !filter_cons, Hv.
  assert (length (filter (λ c, Is_true (isVisible c)) out)
          = length (filter (λ c, Is_true (isVisible c)) mapped)) as Hrec.
  { apply IH; [simpl in Hlen; lia|]. intros j x Hx. apply (Hpt (S j) x Hx). }
  destruct (decide (Is_true (isVisible c))); simpl; by rewrite Hrec.
Qed.

Lemma isVisible_keys (c c' : ColDef) :
  c' !! "field" = c !! "field" → c' !! "hide" = c !! "hide" → isVisible c' = isVisible c.
Proof. intros H1 H2. unfold isVisible, field, hide, get. by rewrite H1, H2. Qed.

(** C5 (as amended). When no type default hides its columns, and the [N]
    input columns all have a non-null field identifier and none is hidden,
    the visible collection and the positions of the metadata have [N]
    entries with checkbox selection off, and one more with checkbox
    selection on and the checkbox column itself identified and not
    hidden. *)
Theorem visible_count (getColDef : val → ColDef) (checkboxObj : ColDef)
    (columns : list ColDef) (options : GridOptions) (apiRef : option GridApi) :
  (∀ t, truthy (hide (getColDef t)) = false) →
  (∀ c, c ∈ columns → is_nullish (field c) = false ∧ truthy (hide c) = false) →
  let state := resetState getColDef checkboxObj columns options apiRef in
  let extra := if checkboxSelection options && isVisible checkboxObj then 1%nat else 0%nat in
  length (visible state) = (length columns + extra)%nat
  ∧ length (positions (meta state)) = (length columns + extra)%nat.
Proof.
  intros Hdef Hcols state extra.
  assert (length (visible state) = (length columns + extra)%nat) as Hv.
  { unfold state, resetState. cbn [visible].
    destruct (hydrateColumns_keeps getColDef checkboxObj columns options apiRef) as [Hlen Hkeep].
    rewrite (filterVisible_length_pointwise _ (mapColumns getColDef checkboxObj columns options)).
    - rewrite mapColumns_eq. unfold filterVisible. rewrite filter_app, length_app.
      fold (filterVisible (map (λ c, spread (getColDef (get c "type")) c) columns)).
      rewrite (filterVisible_all (map (λ c, spread (getColDef (get c "type")) c) columns)).
      + rewrite length_map. unfold extra.
        destruct (checkboxSelection options); simpl; [|lia].
        rewrite filter_cons, filter_nil.
        destruct (isVisible checkboxObj); simpl; lia.
      + apply Forall_forall. intros m Hm.
        apply list_elem_of_fmap in Hm as (c & -> & Hc).
        destruct (Hcols c Hc) as [Hf Hh].
        unfold isVisible, field, hide, get in *. rewrite !spread_lookup.
        destruct (c !! "field") as [f|]; [|done]. simpl in *. rewrite Hf. simpl.
        destruct (c !! "hide") as [v|]; simpl in *; [by rewrite Hh|].
        specialize (Hdef (default VUndefined (c !! "type"))). by rewrite Hdef.
    - exact Hlen.
    - intros j c Hj. destruct (Hkeep j c Hj) as (c' & Hc' & Hk).
      exists c'. split; [exact Hc'|]. apply isVisible_keys; by apply Hk. }
  split; [exact Hv|].
  unfold state, resetState in *. cbn [meta visible] in *.
  by rewrite toMeta_positions_length.
Qed.

Lemma visible_count_witness :
  let state := resetState sampleColDef checkboxColumn [colA; colC] checkboxOff (Some apiSortA) in
  length (visible state) = 2%nat ∧ length (positions (meta state)) = 2%nat.
Proof.
  apply (visible_count sampleColDef checkboxColumn [colA; colC] checkboxOff (Some apiSortA)).
  - done.
  - intros c Hc. apply list_elem_of_lookup in Hc as [i Hi].
    destruct i as [|[|i]]; simpl in Hi; try discriminate; injection Hi as <-; by vm_compute.
Defined.

(** C5 as stated fails: with checkbox selection on, two input columns, both
    identified and not hidden, give three visible columns and three
    positions. *)
Lemma checkbox_adds_a_visible_column :
  let state := resetState sampleColDef checkboxColumn [colA; colC] checkboxOn None in
  length [colA; colC] = 2%nat
  ∧ length (visible state) = 3%nat
  ∧ length (positions (meta state)) = 3%nat.
Proof. by vm_compute. Qed.

(** ** The reaction to a sort model *)

Lemma pushClearPatch_loop previous : ∀ idx updatedCols,
  forEachFrom pushClearPatch idx previous updatedCols
  = updatedCols ++ (clearPatch <$> previous).
Proof.
  induction previous as [|f previous IH]; intros idx ups; simpl.
  - by rewrite app_nil_r.
  - rewrite IH. unfold pushClearPatch. by rewrite <- app_assoc.
Qed.

Lemma pushSortPatch_loop len model : ∀ idx fields updatedCols,
  forEachFrom (pushSortPatch len) idx model (fields, updatedCols)
  = (fields ++ (colId <$> model),
     updatedCols ++ imap (λ i e, setPatch len (idx + i) e) model).
Proof.
  induction model as [|e model IH]; intros idx fields ups; simpl.
  - by rewrite !app_nil_r.
  - rewrite IH. rewrite <- !app_assoc. simpl. rewrite Nat.add_0_r. f_equal. f_equal.
    f_equal. apply imap_ext. intros i x _. simpl. f_equal. lia.
Qed.

Lemma sortUpdates_eq previous sortModel :
  sortUpdates previous sortModel
  = (colId <$> sortModel,
     (clearPatch <$> previous) ++ imap (setPatch (length sortModel)) sortModel).
Proof.
  unfold sortUpdates, forEach. by rewrite pushClearPatch_loop, pushSortPatch_loop.
Qed.

Lemma sortPatch_lookups fld dir idx :
  sortPatch fld dir idx !! "field" = Some (VStr fld)
  ∧ sortPatch fld dir idx !! "sortDirection" = Some dir
  ∧ sortPatch fld dir idx !! "sortIndex" = Some idx.
Proof. done. Qed.

Lemma clearPatch_field fld : field (clearPatch fld) = VStr fld.
Proof. done. Qed.





Lemma onSortedColumns_effect apiRef sortModel h :
  let patches := (clearPatch <$> sortedColFieldsRef h)
                 ++ imap (setPatch (length sortModel)) sortModel in
  let h' := onSortedColumns apiRef sortModel h in
  sortedColFieldsRef h' = colId <$> sortModel
  ∧ stateRef h' = (if bool_decide (0 < length patches)%nat
                   then getUpdatedColumnState (stateRef h) patches else stateRef h)
  ∧ setStateCalls h' = (if bool_decide (0 < length patches)%nat
                        then S (setStateCalls h) else setStateCalls h)
  ∧ rafUpdates h' = S (rafUpdates h).
Proof.
  intros patches h'. unfold h', onSortedColumns. rewrite sortUpdates_eq. fold patches.
  simpl. by destruct (bool_decide (0 < length patches)%nat).
Qed.





(** * Further properties of the code *)

(** ** [toLookup] *)

Lemma toLookup_Some cols k c : toLookup cols !! k = Some c → c ∈ cols ∧ keyOf c = k.
Proof.
  rewrite toLookup_last. intros H. apply last_Some_elem_of in H.
  apply list_elem_of_filter in H as [H1 H2]. done.
Qed.

Lemma toLookup_None cols k : toLookup cols !! k = None ↔ ∀ c, c ∈ cols → keyOf c ≠ k.
Proof.
  rewrite toLookup_last, last_None. split.
  - intros H c Hc Hk. by eapply (filter_nil_not_elem_of (λ c, keyOf c = k)).
  - intros H. destruct (filter _ cols) as [|c rest] eqn:E; [done|].
    assert (c ∈ filter (λ c, keyOf c = k) cols) as Hc by (rewrite E; left).
    apply list_elem_of_filter in Hc as [Hk Hc]. by destruct (H c Hc).
Qed.

Lemma toLookup_snoc cols c : toLookup (cols ++ [c]) !! keyOf c = Some c.
Proof.
  rewrite toLookup_last, filter_app, filter_cons, decide_True by done.
  rewrite filter_nil. apply last_snoc.
Qed.

Lemma toLookup_unique cols c :
  NoDup (keyOf <$> cols) → c ∈ cols → toLookup cols !! keyOf c = Some c.
Proof.
  intros Hnd Hc. apply list_elem_of_split in Hc as (l1 & l2 & ->).
  rewrite fmap_app, fmap_cons in Hnd.
  apply NoDup_app in Hnd as (_ & _ & Hnd). apply NoDup_cons in Hnd as [Hnotin _].
  rewrite toLookup_last, filter_app, filter_cons, decide_True by done.
  assert (filter (λ c0, keyOf c0 = keyOf c) l2 = []) as ->.
  { destruct (filter _ l2) as [|d rest] eqn:E; [done|].
    assert (d ∈ filter (λ c0, keyOf c0 = keyOf c) l2) as Hd by (rewrite E; left).
    apply list_elem_of_filter in Hd as [Hk Hd]. destruct Hnotin.
    rewrite <- Hk. by apply list_elem_of_fmap_2. }
  apply last_snoc.
Qed.

(** X1. What [toLookup] files: every column read from the lookup is a
    column of the list, read under its own key; a column added at the end
    takes over its key (the last write wins); when the keys are pairwise
    distinct every column is found under its key; and, when no column is
    identified by "__proto__", a key that no object inherits reads as
    nothing exactly when no column has it. *)
Theorem toLookup_round_trip (cols : list ColDef) :
  (∀ k c, toLookup cols !! k = Some c → c ∈ cols ∧ keyOf c = k)
  ∧ (∀ c, toLookup (cols ++ [c]) !! keyOf c = Some c)
  ∧ (NoDup (keyOf <$> cols) → ∀ c, c ∈ cols → toLookup cols !! keyOf c = Some c)
  ∧ ((∀ c, c ∈ cols → keyOf c ≠ "__proto__") →
      ∀ k, k ∉ inheritedKeys →
        (toLookup cols !! k = None ↔ ∀ c, c ∈ cols → keyOf c ≠ k)).
Proof.
  split_and!.
  - apply toLookup_Some.
  - apply toLookup_snoc.
  - intros Hnd c Hc. by apply toLookup_unique.
  - intros _ k _. apply toLookup_None.
Qed.

Lemma toLookup_round_trip_witness :
  NoDup (keyOf <$> [colA; colB; colC])
  ∧ (∀ c, c ∈ [colA; colB; colC] → keyOf c ≠ "__proto__")
  ∧ ("z" ∉ inheritedKeys)
  ∧ toLookup [colA; colB; colC] !! "b" = Some colB
  ∧ toLookup ([colA; colB; colC] ++ [colA']) !! "a" = Some colA'
  ∧ toLookup [colA; colB; colC] !! "z" = None.
Proof.
  destruct (toLookup_round_trip [colA; colB; colC]) as (_ & Hlast & Huniq & Hnone).
  assert (NoDup (keyOf <$> [colA; colB; colC])) as Hnd.
  { apply (bool_decide_unpack (NoDup (keyOf <$> [colA; colB; colC]))). by vm_compute. }
  assert (∀ c, c ∈ [colA; colB; colC] → keyOf c ≠ "__proto__") as Hproto.
  { intros c Hc. apply list_elem_of_lookup in Hc as [i Hi].
    destruct i as [|[|[|i]]]; simpl in Hi; try discriminate; injection Hi as <-; by vm_compute. }
  assert ("z" ∉ inheritedKeys) as Hz.
  { apply (bool_decide_unpack ("z" ∉ inheritedKeys)). by vm_compute. }
  split; [exact Hnd|]. split; [exact Hproto|]. split; [exact Hz|]. split_and!.
  - apply (Huniq Hnd colB). apply list_elem_of_lookup. by exists 1%nat.
  - exact (Hlast colA').
  - apply (Hnone Hproto "z" Hz). intros c Hc. apply list_elem_of_lookup in Hc as [i Hi].
    destruct i as [|[|[|i]]]; simpl in Hi; try discriminate; injection Hi as <-; by vm_compute.
Defined.

(** ** The read accessors together *)

(** X2. In a consistent state whose columns have pairwise distinct keys,
    the accessors agree: when [getColumnIndex] finds a field at index [i],
    the visible column at [i] is the column [getColumnFromField] returns
    for that field, it is one of [getAllColumns], and it has that field. *)
Theorem index_and_lookup_agree (h : hook) (fld : string) (i : nat) :
  consistent (stateRef h) →
  NoDup (keyOf <$> all (stateRef h)) →
  getColumnIndex fld h = Z.of_nat i →
  ∃ c, getVisibleColumns h !! i = Some c
       ∧ getColumnFromField fld h = Some c
       ∧ c ∈ getAllColumns h
       ∧ field c = VStr fld.
Proof.
  intros Hc Hnd Hidx.
  destruct (getColumnIndex_cases h fld) as [(_ & Hm & _) | (i' & c & Hi & Hf & _ & Hidx' & _)].
  { rewrite Hm in Hidx. lia. }
  rewrite Hidx' in Hidx. apply Nat2Z.inj in Hidx. subst i'.
  exists c. unfold getVisibleColumns, getColumnFromField, getAllColumns.
  assert (c ∈ all (stateRef h)) as Hin.
  { destruct Hc as (Hv & _). apply list_elem_of_lookup_2 in Hi. rewrite Hv in Hi.
    by apply list_elem_of_filter in Hi as [_ Hi]. }
  split_and!; [done | | done | done].
  rewrite (consistent_lookup _ Hc).
  replace fld with (keyOf c) by (unfold keyOf; by rewrite Hf).
  by apply toLookup_unique.
Qed.

Lemma index_and_lookup_agree_witness :
  ∃ c, getVisibleColumns hookABC !! 1%nat = Some c
       ∧ getColumnFromField "c" hookABC = Some c
       ∧ c ∈ getAllColumns hookABC
       ∧ field c = VStr "c".
Proof.
  apply (index_and_lookup_agree hookABC "c" 1).
  - apply resetState_consistent.
  - apply (bool_decide_unpack (NoDup (keyOf <$> all (stateRef hookABC)))). by vm_compute.
  - by vm_compute.
Defined.

(** ** [toMeta] on widths that are not negative, and on a missing width *)

Lemma num_le_trans a b c : num_le a b → num_le b c → num_le a c.
Proof.
  destruct a as [x|[]|], b as [y|[]|], c as [z|[]|]; simpl; try done; try lia; try tauto.
  all: intuition congruence.
Qed.

Lemma nonnegNum_le t : nonnegNum t → num_le (Num 0) t ∧ num_le t t.
Proof. destruct t as [x|[]|]; simpl; try done; intuition lia. Qed.

(** Adding a width that is not negative to such a total gives such a
    total, and one that is not smaller. *)
Lemma num_add_nonneg t w :
  nonnegNum t → 0 ≤ w →
  nonnegNum (num_add t (Num w)) ∧ num_le t (num_add t (Num w)).
Proof.
  destruct t as [x|[]|]; simpl; [|done|tauto|done].
  intros [Hx Hr] Hw. unfold round_double. rewrite Z.abs_eq by lia.
  pose proof (round_nat_lower x (x + w) Hx ltac:(lia) Hr) as Hlow.
  pose proof (round_nat_representable (x + w) ltac:(lia)) as Hrep.
  case_decide as Hfin.
  - destruct (decide (x + w = 0)) as [E|E].
    + rewrite E. simpl. split; [split; [lia | by left] | lia].
    + rewrite Z.sgn_pos by lia. rewrite Z.mul_1_l. simpl. split; [split; [lia | done] | lia].
  - rewrite bool_decide_eq_false_2 by lia. done.
Qed.

Lemma sumWidths_nonneg cols : Forall nonnegWidth cols → nonnegNum (sumWidths cols).
Proof.
  induction cols as [|c cols IH] using rev_ind; intros Hall.
  - simpl. split; [lia | by left].
  - apply Forall_app in Hall as [Hall Hc]. apply Forall_inv in Hc as (w & Hw & Hpos).
    rewrite sumWidths_snoc, Hw. by apply num_add_nonneg; [apply IH|].
Qed.

Lemma sumWidths_mono cols (i j : nat) :
  Forall nonnegWidth cols → (i ≤ j)%nat →
  num_le (sumWidths (take i cols)) (sumWidths (take j cols)).
Proof.
  intros Hall Hij. induction Hij as [|j Hij IH].
  - apply nonnegNum_le, sumWidths_nonneg. by apply Forall_take.
  - destruct (cols !! j) as [c|] eqn:Hc.
    + rewrite (sumWidths_take_S _ _ _ Hc).
      eapply num_le_trans; [exact IH|].
      destruct (proj1 (Forall_lookup _ _) Hall j c Hc) as (w & -> & Hw).
      apply num_add_nonneg; [|done]. apply sumWidths_nonneg. by apply Forall_take.
    + apply lookup_ge_None in Hc.
      rewrite (take_ge cols (S j)) by lia. by rewrite (take_ge cols j) in IH by lia.
Qed.

(** X4. When every visible column has a width that is a number and not
    negative, the positions are numbers that never decrease from one column
    to the next, start at or above 0 and stay at or below the total width;
    when the total width is finite, so are they. *)
Theorem toMeta_positions_monotone (visibleColumns : list ColDef) :
  Forall nonnegWidth visibleColumns →
  let total := totalWidth (toMeta visibleColumns) in
  num_le (Num 0) total
  ∧ ∀ (i j : nat) p q, (i ≤ j)%nat →
      positions (toMeta visibleColumns) !! i = Some p →
      positions (toMeta visibleColumns) !! j = Some q →
      num_le (Num 0) p ∧ num_le p q ∧ num_le q total
      ∧ ∀ t, total = Num t →
          ∃ x y, p = Num x ∧ q = Num y ∧ 0 ≤ x ∧ x ≤ y ∧ y ≤ t.
Proof.
  intros Hall total.
  assert (total = sumWidths visibleColumns) as Etot by (unfold total; by rewrite toMeta_eq).
  split. { rewrite Etot. by apply nonnegNum_le, sumWidths_nonneg. }
  intros i j p q Hij Hp Hq.
  pose proof (lookup_lt_Some _ _ _ Hp) as Hi. pose proof (lookup_lt_Some _ _ _ Hq) as Hj.
  rewrite toMeta_positions_length in Hi, Hj.
  rewrite toMeta_positions_lookup in Hp, Hq by done.
  injection Hp as <-. injection Hq as <-.
  assert (num_le (Num 0) (sumWidths (take i visibleColumns))) as H0.
  { apply nonnegNum_le, sumWidths_nonneg. by apply Forall_take. }
  assert (num_le (sumWidths (take i visibleColumns)) (sumWidths (take j visibleColumns))) as H1.
  { by apply sumWidths_mono. }
  assert (num_le (sumWidths (take j visibleColumns)) total) as H2.
  { rewrite Etot. rewrite <- (take_ge visibleColumns (length visibleColumns)) at 2 by lia.
    apply sumWidths_mono; [done | lia]. }
  split_and!; try done.
  intros t Ht. rewrite Ht in H2.
  destruct (sumWidths (take i visibleColumns)) as [x|[]|], (sumWidths (take j visibleColumns)) as [y|[]|];
    simpl in H0, H1, H2; try done; try (by destruct H1).
  exists x, y. split_and!; try done; lia.
Qed.

Lemma toMeta_positions_monotone_witness :
  Forall nonnegWidth [colA; colC]
  ∧ num_le (Num 0) (totalWidth (toMeta [colA; colC]))
  ∧ ∃ x y, positions (toMeta [colA; colC]) !! 0%nat = Some (Num x)
           ∧ positions (toMeta [colA; colC]) !! 1%nat = Some (Num y)
           ∧ 0 ≤ x ∧ x ≤ y ∧ y ≤ 180.
Proof.
  assert (Forall nonnegWidth [colA; colC]) as Hall.
  { repeat constructor; [exists 100 | exists 80]; (split; [by vm_compute | lia]). }
  split; [exact Hall|].
  destruct (toMeta_positions_monotone [colA; colC] Hall) as (Ht & Hmono).
  split; [exact Ht|].
  destruct (Hmono 0%nat 1%nat (Num 0) (Num 100)) as (_ & _ & _ & Hfin); [lia | done | done |].
  destruct (Hfin 180) as (x & y & Hx & Hy & H1 & H2 & H3); [done|].
  exists x, y. rewrite <- Hx, <- Hy. by split_and!.
Defined.

Lemma sumWidths_NaN_from cols (i j : nat) c :
  cols !! i = Some c → width c = NaN → (i < j)%nat → sumWidths (take j cols) = NaN.
Proof.
  intros Hi Hc Hij. induction Hij as [|j Hij IH].
  - rewrite (sumWidths_take_S _ _ _ Hi), Hc. apply num_add_NaN_r.
  - destruct (cols !! j) as [d|] eqn:Hd.
    + rewrite (sumWidths_take_S _ _ _ Hd), IH. apply num_add_NaN_l.
    + apply lookup_ge_None in Hd.
      rewrite (take_ge cols (S j)) by lia. by rewrite (take_ge cols j) in IH by lia.
Qed.

(** X5. Among visible columns whose widths are of the declared type, one
    whose width is missing poisons what comes after it: the total width is
    [NaN] and so is the position of every later column, while the positions
    up to and including that column are the sums of the widths before
    them. *)
Theorem toMeta_missing_width (visibleColumns : list ColDef) (i : nat) (c : ColDef) :
  Forall typedWidth visibleColumns →
  visibleColumns !! i = Some c →
  get c "width" = VUndefined →
  totalWidth (toMeta visibleColumns) = NaN
  ∧ (∀ j, (i < j < length visibleColumns)%nat →
       positions (toMeta visibleColumns) !! j = Some NaN)
  ∧ (∀ j, (j ≤ i)%nat →
       positions (toMeta visibleColumns) !! j
       = Some (sumWidths (take j (take i visibleColumns)))).
Proof.
  intros _ Hi Hu.
  assert (width c = NaN) as Hc by (unfold width; by rewrite Hu).
  pose proof (lookup_lt_Some _ _ _ Hi) as Hlt.
  split_and!.
  - rewrite toMeta_eq. simpl.
    rewrite <- (take_ge visibleColumns (length visibleColumns)) by lia.
    by apply (sumWidths_NaN_from _ i _ c).
  - intros j Hj. rewrite toMeta_positions_lookup by lia. f_equal.
    apply (sumWidths_NaN_from _ i _ c); [done | done | lia].
  - intros j Hj. rewrite toMeta_positions_lookup by lia. f_equal.
    rewrite take_take. by rewrite Nat.min_l by lia.
Qed.

Lemma toMeta_missing_width_witness :
  Forall typedWidth [colA; colNoWidth; colC]
  ∧ totalWidth (toMeta [colA; colNoWidth; colC]) = NaN
  ∧ positions (toMeta [colA; colNoWidth; colC]) !! 2%nat = Some NaN
  ∧ positions (toMeta [colA; colNoWidth; colC]) !! 1%nat = Some (Num 100).
Proof.
  assert (Forall typedWidth [colA; colNoWidth; colC]) as Ht.
  { apply (bool_decide_unpack (Forall typedWidth [colA; colNoWidth; colC])). by vm_compute. }
  split; [exact Ht|].
  destruct (toMeta_missing_width [colA; colNoWidth; colC] 1 colNoWidth Ht eq_refl eq_refl)
    as (Htot & Hafter & Hbefore).
  split; [exact Htot|]. split; [apply Hafter; simpl; lia|].
  rewrite Hbefore by lia. done.
Defined.

(** ** [getUpdatedColumnState]: how patches compose *)

Lemma applyColumnUpdate_indep newColumn idx idx' l l' :
  new_all l = new_all l' → new_lookup l = new_lookup l' →
  new_all (applyColumnUpdate newColumn idx l) = new_all (applyColumnUpdate newColumn idx' l')
  ∧ new_lookup (applyColumnUpdate newColumn idx l)
    = new_lookup (applyColumnUpdate newColumn idx' l').
Proof. unfold applyColumnUpdate. simpl. by intros -> ->. Qed.

(** The array and the lookup the loop ends with depend on those it starts
    with alone. *)
Lemma runColumnUpdates_indep updates : ∀ idx idx' l l',
  new_all l = new_all l' → new_lookup l = new_lookup l' →
  new_all (forEachFrom applyColumnUpdate idx updates l)
  = new_all (forEachFrom applyColumnUpdate idx' updates l')
  ∧ new_lookup (forEachFrom applyColumnUpdate idx updates l)
    = new_lookup (forEachFrom applyColumnUpdate idx' updates l').
Proof.
  induction updates as [|p updates IH]; intros idx idx' l l' Ha Hl; [done|].
  simpl. destruct (applyColumnUpdate_indep p idx idx' l l' Ha Hl) as [Ha' Hl'].
  by apply IH.
Qed.

Lemma getUpdatedColumnState_app state ups1 ups2 :
  getUpdatedColumnState state (ups1 ++ ups2)
  = getUpdatedColumnState (getUpdatedColumnState state ups1) ups2.
Proof.
  apply getUpdatedColumnState_ext.
  - unfold runColumnUpdates, forEach. rewrite forEachFrom_app.
    by apply runColumnUpdates_indep.
  - unfold runColumnUpdates, forEach. rewrite forEachFrom_app.
    by apply runColumnUpdates_indep.
Qed.

(** X6. Patch lists compose: applying [ups1 ++ ups2] in one call gives the
    state that applying [ups1] and then [ups2] gives, so one call of
    [updateColumns] on the concatenation leaves the same state in
    [stateRef] as two calls in a row; and an empty list changes nothing in
    a state that a patch update returned. *)
Theorem updates_compose (state : InternalColumns) (ups1 ups2 : list ColDef) :
  getUpdatedColumnState state (ups1 ++ ups2)
  = getUpdatedColumnState (getUpdatedColumnState state ups1) ups2
  ∧ getUpdatedColumnState (getUpdatedColumnState state ups1) []
    = getUpdatedColumnState state ups1
  ∧ ∀ apiRef apiRef' h,
      stateRef (updateColumns apiRef (ups1 ++ ups2) h)
      = stateRef (updateColumns apiRef' ups2 (updateColumns apiRef ups1 h)).
Proof.
  split; [apply getUpdatedColumnState_app|]. split.
  - by rewrite <- getUpdatedColumnState_app, app_nil_r.
  - intros apiRef apiRef' h. simpl. apply getUpdatedColumnState_app.
Qed.

(** ** [getUpdatedColumnState]: what patches leave alone *)

Lemma applyColumnUpdate_fields newColumn idx l :
  field <$> new_all (applyColumnUpdate newColumn idx l) = field <$> new_all l.
Proof.
  destruct (list_find (λ c, Is_true (strict_eq (field c) (field newColumn))) (new_all l))
    as [[r a]|] eqn:Hfind.
  - destruct (applyColumnUpdate_found _ idx l r a Hfind) as [-> _].
    apply list_find_Some in Hfind as (Hr & Hf & _). apply strict_eq_true in Hf.
    rewrite list_fmap_insert, (field_spread _ _ Hf), <- Hf.
    apply list_insert_id. by rewrite list_lookup_fmap, Hr.
  - by destruct (applyColumnUpdate_missing _ idx l Hfind) as [-> _].
Qed.

Lemma runColumnUpdates_fields state updates :
  field <$> new_all (runColumnUpdates state updates) = field <$> all state.
Proof.
  unfold runColumnUpdates, forEach.
  apply (forEachFrom_invariant (λ l, field <$> new_all l = field <$> all state) (λ _, True)).
  - intros p idx l _ Hl. by rewrite applyColumnUpdate_fields.
  - by apply Forall_true.
  - done.
Qed.

(** X7. A patch update never adds, removes, reorders or renames a column:
    whatever the patches (known fields or not), the full collection keeps
    its length and, position by position, its field identifiers, and
    [hasColumns] is what the length of the collection it started from
    says. *)
Theorem patches_keep_columns (state : InternalColumns) (columnUpdates : list ColDef) :
  let newState := getUpdatedColumnState state columnUpdates in
  field <$> all newState = field <$> all state
  ∧ length (all newState) = length (all state)
  ∧ hasColumns newState = bool_decide (0 < length (all state))%nat.
Proof.
  intros newState.
  pose proof (runColumnUpdates_fields state columnUpdates) as Hf.
  assert (length (all newState) = length (all state)) as Hlen.
  { rewrite <- (length_fmap field (all newState)), <- (length_fmap field (all state)).
    by rewrite <- Hf. }
  split; [exact Hf|]. split; [exact Hlen|].
  unfold newState, getUpdatedColumnState. cbn [hasColumns].
  unfold newState, getUpdatedColumnState in Hlen. cbn [all] in Hlen. by rewrite Hlen.
Qed.

(** X8. A patch for a field identifier that no column has changes no
    column: the full collection, hence the visible columns and the
    metadata, are those of the state it starts from, and the lookup gains
    the patch itself under the key of its field. *)
Theorem patch_unknown_field (state : InternalColumns) (newColumn : ColDef) :
  (∀ c, c ∈ all state → field c ≠ field newColumn) →
  let newState := getUpdatedColumnState state [newColumn] in
  all newState = all state
  ∧ visible newState = filterVisible (all state)
  ∧ meta newState = toMeta (filterVisible (all state))
  ∧ lookup newState = <[to_key (field newColumn) := newColumn]> (lookup state).
Proof.
  intros Hnone newState.
  assert (list_find (λ c, Is_true (strict_eq (field c) (field newColumn))) (all state) = None)
    as Hfind.
  { apply list_find_None, Forall_forall. intros c Hc Hf. apply strict_eq_true in Hf.
    by apply (Hnone c). }
  pose proof (applyColumnUpdate_missing newColumn 0%nat
    {| new_all := all state; new_lookup := lookup state; shared := true;
       state_all := all state; state_minus_one := None;
       state_lookup := lookup state |} Hfind) as [Hall Hlk].
  cbn [new_all new_lookup] in Hall, Hlk.
  assert (all newState = all state) as Ea by exact Hall.
  split; [exact Ea|]. split.
  { destruct (getUpdatedColumnState_derived state [newColumn]) as [Hv _].
    fold newState in Hv. by rewrite Hv, Ea. }
  split.
  { destruct (getUpdatedColumnState_derived state [newColumn]) as [Hv Hm].
    fold newState in Hv, Hm. by rewrite Hm, Hv, Ea. }
  exact Hlk.
Qed.

Lemma patch_unknown_field_witness :
  all (getUpdatedColumnState stateABC [patchZ]) = all stateABC
  ∧ lookup (getUpdatedColumnState stateABC [patchZ]) !! "z" = Some patchZ.
Proof.
  destruct (patch_unknown_field stateABC patchZ) as (Ha & _ & _ & Hl).
  - intros c Hc Hf. apply list_elem_of_lookup in Hc as [i Hi].
    destruct i as [|[|[|i]]]; simpl in Hi; try discriminate;
      injection Hi as <-; vm_compute in Hf; discriminate.
  - split; [exact Ha|]. rewrite Hl. apply lookup_insert_eq.
Defined.

Lemma runColumnUpdates_unnamed state updates j (c : ColDef) :
  all state !! j = Some c →
  Forall (λ p, field p ≠ field c) updates →
  new_all (runColumnUpdates state updates) !! j = Some c.
Proof.
  intros Hj Hups. unfold runColumnUpdates, forEach.
  apply (forEachFrom_invariant (λ l, new_all l !! j = Some c) (λ p, field p ≠ field c));
    [|done..].
  intros p idx l Hp Hl.
  destruct (list_find (λ c, Is_true (strict_eq (field c) (field p))) (new_all l))
    as [[r a]|] eqn:Hfind.
  - destruct (applyColumnUpdate_found _ idx l r a Hfind) as [-> _].
    apply list_find_Some in Hfind as (Hr & Hf & _). apply strict_eq_true in Hf.
    destruct (decide (r = j)) as [->|Hne]; [|by rewrite list_lookup_insert_ne].
    rewrite Hl in Hr. injection Hr as <-. by destruct Hp.
  - by destruct (applyColumnUpdate_missing _ idx l Hfind) as [-> _].
Qed.

Lemma runColumnUpdates_other_keys state updates j (c : ColDef) k :
  all state !! j = Some c →
  Forall (λ p : ColDef, p !! k = None) updates →
  ∃ c', new_all (runColumnUpdates state updates) !! j = Some c' ∧ c' !! k = c !! k.
Proof.
  intros Hj Hups. unfold runColumnUpdates, forEach.
  apply (forEachFrom_invariant
    (λ l, ∃ c', new_all l !! j = Some c' ∧ c' !! k = c !! k) (λ p : ColDef, p !! k = None));
    [|done|by exists c].
  intros p idx l Hp (c' & Hl & Hk).
  destruct (list_find (λ c, Is_true (strict_eq (field c) (field p))) (new_all l))
    as [[r a]|] eqn:Hfind.
  - destruct (applyColumnUpdate_found _ idx l r a Hfind) as [-> _].
    apply list_find_Some in Hfind as (Hr & _ & _).
    destruct (decide (r = j)) as [->|Hne].
    + rewrite Hl in Hr. injection Hr as <-.
      exists (spread c' p). split.
      * apply list_lookup_insert_eq. by eapply lookup_lt_Some.
      * by rewrite (get_spread_default _ _ _ Hp).
    + exists c'. by rewrite list_lookup_insert_ne.
  - destruct (applyColumnUpdate_missing _ idx l Hfind) as [-> _]. by exists c'.
Qed.

(** X9. What a list of patches leaves alone: a column whose field identifier
    no patch names is, at its position, the column it was; and in every
    column a key that no patch has keeps its value. *)
Theorem patches_frame (state : InternalColumns) (columnUpdates : list ColDef)
    (j : nat) (c : ColDef) :
  all state !! j = Some c →
  let newState := getUpdatedColumnState state columnUpdates in
  ((∀ p, p ∈ columnUpdates → field p ≠ field c) → all newState !! j = Some c)
  ∧ ∀ k, (∀ p : ColDef, p ∈ columnUpdates → p !! k = None) →
      ∃ c', all newState !! j = Some c' ∧ c' !! k = c !! k.
Proof.
  intros Hj newState. split.
  - intros H. apply runColumnUpdates_unnamed; [done|]. by apply Forall_forall.
  - intros k H. apply runColumnUpdates_other_keys; [done|]. by apply Forall_forall.
Qed.

Lemma patches_frame_witness :
  all (getUpdatedColumnState stateABC [widenC]) !! 1%nat = all stateABC !! 1%nat
  ∧ ∃ c', all (getUpdatedColumnState stateABC [widenC]) !! 2%nat = Some c'
          ∧ c' !! "hide" = None.
Proof.
  destruct (patches_frame stateABC [widenC] 1 (spread (sampleColDef VUndefined) colB)
              eq_refl) as [Hsame _].
  destruct (patches_frame stateABC [widenC] 2 (spread (sampleColDef VUndefined) colC)
              eq_refl) as [_ Hkey].
  assert (∀ p : ColDef, p ∈ [widenC] → p = widenC) as Hone.
  { intros p Hp. apply list_elem_of_lookup in Hp as [i Hi].
    destruct i as [|i]; simpl in Hi; [by injection Hi | discriminate]. }
  split.
  - apply Hsame. intros p Hp Hf. rewrite (Hone p Hp) in Hf. vm_compute in Hf. discriminate.
  - destruct (Hkey "hide") as (c' & Hc' & Hk).
    { intros p Hp. by rewrite (Hone p Hp). }
    exists c'. split; [exact Hc'|]. exact Hk.
Defined.

(** ** [getUpdatedColumnState]: the last patch of a field wins *)

Lemma carries_spread (a q : ColDef) : carries q (spread a q).
Proof. intros k v Hk. by apply get_spread_explicit. Qed.

Lemma applyColumnUpdate_patches q idx l : patchedIn q (applyColumnUpdate q idx l).
Proof.
  destruct (list_find (λ c, Is_true (strict_eq (field c) (field q))) (new_all l))
    as [[r a]|] eqn:Hfind.
  - destruct (applyColumnUpdate_found _ idx l r a Hfind) as [Ha Hl].
    apply list_find_Some in Hfind as (Hr & Hf & Hfirst). apply strict_eq_true in Hf.
    pose proof (field_spread a q Hf) as Hfm.
    split.
    + rewrite Hl. eexists. split; [apply lookup_insert_eq | apply carries_spread].
    + rewrite Ha. intros i c Hi Hfc Hfo.
      destruct (Nat.lt_trichotomy i r) as [Hlt|[->|Hlt]].
      * rewrite list_lookup_insert_ne in Hi by lia. exfalso.
        eapply Hfirst; [exact Hi | exact Hlt |]. by apply strict_eq_true.
      * rewrite list_lookup_insert_eq in Hi by (by eapply lookup_lt_Some).
        injection Hi as <-. apply carries_spread.
      * exfalso. eapply (Hfo r); [exact Hlt | | ].
        -- apply list_lookup_insert_eq. by eapply lookup_lt_Some.
        -- by rewrite Hfm, Hfc.
  - destruct (applyColumnUpdate_missing _ idx l Hfind) as [Ha Hl]. split.
    + rewrite Hl. exists q. split; [apply lookup_insert_eq | by intros k v].
    + rewrite Ha. intros i c Hi Hfc _. exfalso.
      eapply list_find_None in Hfind. rewrite Forall_forall in Hfind.
      apply (Hfind c (list_elem_of_lookup_2 _ _ _ Hi)). by apply strict_eq_true.
Qed.

Lemma applyColumnUpdate_keeps_patched q p idx l :
  to_key (field p) ≠ to_key (field q) →
  patchedIn q l → patchedIn q (applyColumnUpdate p idx l).
Proof.
  intros Hne [(c0 & Hc0 & Hcar0) Hall].
  assert (field p ≠ field q) as Hnf by congruence.
  destruct (list_find (λ c, Is_true (strict_eq (field c) (field p))) (new_all l))
    as [[r a]|] eqn:Hfind.
  - destruct (applyColumnUpdate_found _ idx l r a Hfind) as [Ha Hl].
    apply list_find_Some in Hfind as (Hr & Hf & _). apply strict_eq_true in Hf.
    pose proof (field_spread a p Hf) as Hfm.
    split.
    + rewrite Hl. exists c0. split; [|done]. by rewrite lookup_insert_ne.
    + rewrite Ha. intros i c Hi Hfc Hfo.
      assert (i ≠ r) as Hir.
      { intros ->. rewrite list_lookup_insert_eq in Hi by (by eapply lookup_lt_Some).
        injection Hi as <-. congruence. }
      rewrite list_lookup_insert_ne in Hi by done.
      apply (Hall i c Hi Hfc). intros j' c' Hlt Hc' Hfc'.
      destruct (decide (j' = r)) as [->|Hjr].
      * rewrite Hr in Hc'. injection Hc' as <-. congruence.
      * eapply (Hfo j' c'); [done | | done]. by rewrite list_lookup_insert_ne.
  - destruct (applyColumnUpdate_missing _ idx l Hfind) as [Ha Hl]. split.
    + rewrite Hl. exists c0. split; [|done]. by rewrite lookup_insert_ne.
    + by rewrite Ha.
Qed.

Lemma runColumnUpdates_last state ups1 q ups2 :
  (∀ p, p ∈ ups2 → to_key (field p) ≠ to_key (field q)) →
  patchedIn q (runColumnUpdates state (ups1 ++ q :: ups2)).
Proof.
  intros Hlater. unfold runColumnUpdates, forEach. rewrite forEachFrom_app. simpl.
  apply (forEachFrom_invariant (patchedIn q) (λ p, to_key (field p) ≠ to_key (field q))).
  - intros p idx l Hp Hl. by apply applyColumnUpdate_keeps_patched.
  - by apply Forall_forall.
  - apply applyColumnUpdate_patches.
Qed.

Lemma runColumnUpdates_last_state state ups1 q ups2 :
  (∀ p, p ∈ ups2 → to_key (field p) ≠ to_key (field q)) →
  (∃ c, lookup (getUpdatedColumnState state (ups1 ++ q :: ups2)) !! to_key (field q) = Some c
        ∧ carries q c)
  ∧ ∀ i c, all (getUpdatedColumnState state (ups1 ++ q :: ups2)) !! i = Some c →
      field c = field q →
      firstOfField (all (getUpdatedColumnState state (ups1 ++ q :: ups2))) i c →
      carries q c.
Proof. intros Hlater. by apply runColumnUpdates_last. Qed.

(** X11. The last patch of a field wins: when no patch after [q] in the
    list has the key of [q], then in the state returned the lookup entry
    under that key, and the first column with the field of [q] if there is
    one, have every key of [q] with the value [q] gives it. *)
Theorem last_patch_wins (state : InternalColumns) (ups1 : list ColDef) (q : ColDef)
    (ups2 : list ColDef) :
  (∀ p, p ∈ ups2 → to_key (field p) ≠ to_key (field q)) →
  let newState := getUpdatedColumnState state (ups1 ++ q :: ups2) in
  (∃ c, lookup newState !! to_key (field q) = Some c ∧ carries q c)
  ∧ ∀ i c, all newState !! i = Some c → field c = field q →
      firstOfField (all newState) i c → carries q c.
Proof. intros Hlater newState. by apply runColumnUpdates_last_state. Qed.

Lemma last_patch_wins_witness :
  ∃ c, lookup (getUpdatedColumnState stateABC ([widenA] ++ hideA :: [widenC])) !! "a" = Some c
       ∧ c !! "hide" = Some (VBool true).
Proof.
  destruct (last_patch_wins stateABC [widenA] hideA [widenC]) as [(c & Hc & Hcar) _].
  - intros p Hp. apply list_elem_of_lookup in Hp as [i Hi].
    destruct i as [|i]; simpl in Hi; [|discriminate]. injection Hi as <-. by vm_compute.
  - exists c. split; [exact Hc|]. by apply Hcar.
Defined.

(** ** [onSortedColumns]: what the columns end up with *)

Lemma onSortedColumns_patched apiRef sortModel h idx e :
  sortModel !! idx = Some e →
  (∀ idx' e', (idx < idx')%nat → sortModel !! idx' = Some e' → colId e' ≠ colId e) →
  ∃ ups1 ups2,
    stateRef (onSortedColumns apiRef sortModel h)
    = getUpdatedColumnState (stateRef h)
        (ups1 ++ setPatch (length sortModel) idx e :: ups2)
    ∧ ∀ p, p ∈ ups2 → to_key (field p) ≠ colId e.
Proof.
  intros Hidx Hlater.
  destruct (onSortedColumns_effect apiRef sortModel h) as (_ & Hs & _).
  rewrite Hs. clear Hs.
  assert (length (take idx sortModel) = idx) as Hlen.
  { apply length_take_le. apply lookup_lt_Some in Hidx. lia. }
  pose proof (take_drop_middle sortModel idx e Hidx) as E.
  assert (∀ i e', drop (S idx) sortModel !! i = Some e' → colId e' ≠ colId e) as Hrest.
  { intros i e' Hi. rewrite lookup_drop in Hi. eapply (Hlater (S idx + i)%nat); [lia|done]. }
  revert Hlen E Hrest. generalize (length sortModel) (take idx sortModel) (drop (S idx) sortModel).
  intros len m1 m2 Hlen E Hrest.
  exists ((clearPatch <$> sortedColFieldsRef h) ++ imap (setPatch len) m1),
         (imap (λ n, setPatch len (S (length m1 + n))) m2).
  split.
  - rewrite <- E, imap_app, imap_cons. rewrite Nat.add_0_r, Hlen.
    rewrite bool_decide_eq_true_2.
    + f_equal. rewrite <- app_assoc. f_equal. f_equal. f_equal.
      apply imap_ext. intros i x _. simpl. f_equal. lia.
    + rewrite !length_app. simpl. lia.
  - intros p Hp. apply list_elem_of_lookup in Hp as [i Hi].
    rewrite list_lookup_imap in Hi.
    destruct (m2 !! i) as [e'|] eqn:He'; [|done]. simpl in Hi. injection Hi as <-.
    change (colId e' ≠ colId e). by eapply Hrest.
Qed.

(** X12. After the reaction to a sort model, the column of each entry is
    annotated as the model says: for an entry at index [idx] whose field no
    later entry names, the lookup entry of that field and the first column
    with that field have the sort direction of the entry and, as sort
    index, [idx + 1] when the model has more than one entry and
    [undefined] when it has one. *)
Theorem reaction_annotates_columns (apiRef : option GridApi) (sortModel : SortModel)
    (h : hook) (idx : nat) (e : SortItem) :
  sortModel !! idx = Some e →
  (∀ idx' e', (idx < idx')%nat → sortModel !! idx' = Some e' → colId e' ≠ colId e) →
  let h' := onSortedColumns apiRef sortModel h in
  let index := if bool_decide (1 < length sortModel)%nat
               then VNum (Z.of_nat idx + 1) else VUndefined in
  (∃ c, getColumnFromField (colId e) h' = Some c
        ∧ sortDirection c = sort e ∧ sortIndex c = index)
  ∧ ∀ i c, getAllColumns h' !! i = Some c →
      field c = VStr (colId e) →
      firstOfField (getAllColumns h') i c →
      sortDirection c = sort e ∧ sortIndex c = index.
Proof.
  intros Hidx Hlater h' index.
  destruct (onSortedColumns_patched apiRef sortModel h idx e Hidx Hlater)
    as (ups1 & ups2 & Hs & Hups2).
  unfold getColumnFromField, getAllColumns. fold h' in Hs. rewrite Hs.
  assert (setPatch (length sortModel) idx e = sortPatch (colId e) (sort e) index) as Eq by done.
  rewrite Eq. clear Hs Eq.
  set (q := sortPatch (colId e) (sort e) index).
  destruct (sortPatch_lookups (colId e) (sort e) index) as (Hqf & Hqd & Hqi).
  fold q in Hqf, Hqd, Hqi.
  assert (field q = VStr (colId e)) as Hfq.
  { unfold field, get. by rewrite Hqf. }
  destruct (runColumnUpdates_last_state (stateRef h) ups1 q ups2) as [(c & Hc & Hcar) Hcols].
  { intros p Hp. rewrite Hfq. simpl. by apply Hups2. }
  rewrite Hfq in Hc, Hcols. simpl in Hc.
  assert (∀ c : ColDef, carries q c →
            sortDirection c = sort e ∧ sortIndex c = index) as Hread.
  { intros c0 Hc0. unfold sortDirection, sortIndex, get.
    by rewrite (Hc0 _ _ Hqd), (Hc0 _ _ Hqi). }
  split.
  - exists c. split; [exact Hc | by apply Hread].
  - intros i c0 Hi Hf Hfo. apply Hread. by eapply Hcols.
Qed.

Lemma reaction_annotates_columns_witness :
  ∃ c, getColumnFromField "c" (onSortedColumns None sortAC hookABC) = Some c
       ∧ sortDirection c = VStr "desc" ∧ sortIndex c = VNum 2.
Proof.
  destruct (reaction_annotates_columns None sortAC hookABC 1
              {| colId := "c"; sort := VStr "desc" |} eq_refl) as [H _].
  - intros idx' e' Hlt He'. destruct idx' as [|[|idx']]; [lia | lia | done].
  - exact H.
Defined.

(** ** [onSortedColumns] after a column has gone *)

Lemma runColumnUpdates_phantom q updates : ∀ idx l,
  (∀ c, c ∈ new_all l → field c ≠ field q) →
  Forall (λ p, to_key (field p) = to_key (field q) → p = q) updates →
  q ∈ updates ∨ new_lookup l !! to_key (field q) = Some q →
  new_lookup (forEachFrom applyColumnUpdate idx updates l) !! to_key (field q) = Some q.
Proof.
  induction updates as [|p updates IH]; intros idx l Hnone Hsame Hq.
  - destruct Hq as [Hq|Hq]; [by apply elem_of_nil in Hq | done].
  - apply Forall_cons in Hsame as [Hp Hsame]. simpl. apply IH; [|done|].
    + intros c Hc Hf. apply (list_elem_of_fmap_2 field) in Hc.
      rewrite applyColumnUpdate_fields in Hc.
      apply list_elem_of_fmap in Hc as (c0 & Hf0 & Hc0). apply (Hnone c0 Hc0). congruence.
    + destruct (decide (p = q)) as [->|Hne].
      * right.
        assert (list_find (λ c, Is_true (strict_eq (field c) (field q))) (new_all l) = None)
          as Hfind.
        { apply list_find_None, Forall_forall. intros c Hc Hf. apply strict_eq_true in Hf.
          by apply (Hnone c). }
        destruct (applyColumnUpdate_missing _ idx l Hfind) as [_ ->].
        apply lookup_insert_eq.
      * destruct Hq as [Hq|Hq].
        -- apply elem_of_cons in Hq as [->|Hq]; [done | by left].
        -- right. assert (to_key (field p) ≠ to_key (field q)) as Hk by (intros H; by apply Hne, Hp).
           unfold applyColumnUpdate. cbn [new_lookup]. by rewrite lookup_insert_ne.
Qed.

(** X13. The fields remembered from the last sort model outlive the columns.
    When a remembered field is the key of no column any more (the input
    changed in between) and the new sort model does not name it, the
    reaction still sends its clear patch: the full collection is untouched
    by it, but the lookup returns that patch as if it were a column, and
    the state committed is not consistent. *)
Theorem reaction_leaves_phantom_entry (apiRef : option GridApi) (sortModel : SortModel)
    (h : hook) (fld : string) :
  fld ∈ sortedColFieldsRef h →
  (∀ c, c ∈ all (stateRef h) → keyOf c ≠ fld) →
  (∀ e, e ∈ sortModel → colId e ≠ fld) →
  let h' := onSortedColumns apiRef sortModel h in
  getColumnFromField fld h' = Some (clearPatch fld)
  ∧ (∀ c, c ∈ getAllColumns h' → keyOf c ≠ fld)
  ∧ ¬ consistent (stateRef h').
Proof.
  intros Hrem Hgone Hmodel h'.
  destruct (onSortedColumns_effect apiRef sortModel h) as (_ & Hs & _). fold h' in Hs.
  set (patches := (clearPatch <$> sortedColFieldsRef h)
                  ++ imap (setPatch (length sortModel)) sortModel) in Hs.
  assert (clearPatch fld ∈ patches) as Hin.
  { apply elem_of_app. left. by apply list_elem_of_fmap_2. }
  rewrite bool_decide_eq_true_2 in Hs.
  2:{ destruct patches; [by apply elem_of_nil in Hin | simpl; lia]. }
  assert (∀ c, c ∈ all (stateRef h') → keyOf c ≠ fld) as Hgone'.
  { intros c Hc Hk. apply (list_elem_of_fmap_2 field) in Hc.
    rewrite Hs in Hc. unfold getUpdatedColumnState in Hc. cbn [all] in Hc.
    rewrite runColumnUpdates_fields in Hc.
    apply list_elem_of_fmap in Hc as (c0 & Hf0 & Hc0). apply (Hgone c0 Hc0).
    unfold keyOf in *. congruence. }
  assert (lookup (stateRef h') !! fld = Some (clearPatch fld)) as Hlk.
  { rewrite Hs. unfold getUpdatedColumnState, runColumnUpdates, forEach. cbn [lookup].
    apply (runColumnUpdates_phantom (clearPatch fld)).
    - cbn [new_all]. intros c Hc Hf. apply (Hgone c Hc). unfold keyOf.
      by rewrite Hf, clearPatch_field.
    - apply Forall_forall. intros p Hp Hk. apply elem_of_app in Hp as [Hp|Hp].
      + apply list_elem_of_fmap in Hp as (f & -> & _).
        rewrite !clearPatch_field in Hk. simpl in Hk. by subst f.
      + apply list_elem_of_lookup in Hp as [i Hi]. rewrite list_lookup_imap in Hi.
        destruct (sortModel !! i) as [e|] eqn:He; [|done]. simpl in Hi. injection Hi as <-.
        rewrite clearPatch_field in Hk.
        change (colId e = fld) in Hk.
        destruct (Hmodel e (list_elem_of_lookup_2 _ _ _ He) Hk).
    - by left. }
  split; [exact Hlk|]. split; [exact Hgone'|].
  intros (_ & _ & _ & Hl). specialize (Hl fld). rewrite Hlk in Hl.
  symmetry in Hl. apply last_Some_elem_of, list_elem_of_filter in Hl as [Hk Hc].
  by apply (Hgone' _ Hc).
Qed.

Lemma reaction_leaves_phantom_entry_witness :
  getColumnFromField "a" (onSortedColumns None [] hookRemovedA) = Some (clearPatch "a")
  ∧ ¬ consistent (stateRef (onSortedColumns None [] hookRemovedA)).
Proof.
  destruct (reaction_leaves_phantom_entry None [] hookRemovedA "a") as (H1 & _ & H2).
  - apply list_elem_of_lookup. by exists 0%nat.
  - intros c Hc Hk. apply list_elem_of_lookup in Hc as [i Hi].
    destruct i as [|[|i]]; simpl in Hi; try discriminate;
      injection Hi as <-; vm_compute in Hk; discriminate.
  - intros e He. by apply elem_of_nil in He.
  - split; [exact H1 | exact H2].
Defined.

(** ** Hiding a column through [updateColumn] *)

Lemma getUpdatedColumnState_single_found state newColumn r a :
  list_find (λ c, Is_true (strict_eq (field c) (field newColumn))) (all state) = Some (r, a) →
  all (getUpdatedColumnState state [newColumn]) = <[r := spread a newColumn]> (all state)
  ∧ lookup (getUpdatedColumnState state [newColumn])
    = <[to_key (field newColumn) := spread a newColumn]> (lookup state).
Proof.
  intros Hfind.
  exact (applyColumnUpdate_found newColumn 0%nat
    {| new_all := all state; new_lookup := lookup state; shared := true;
       state_all := all state; state_minus_one := None;
       state_lookup := lookup state |} r a Hfind).
Qed.

Lemma getUpdatedColumnState_single_missing state newColumn :
  list_find (λ c, Is_true (strict_eq (field c) (field newColumn))) (all state) = None →
  all (getUpdatedColumnState state [newColumn]) = all state
  ∧ lookup (getUpdatedColumnState state [newColumn])
    = <[to_key (field newColumn) := newColumn]> (lookup state).
Proof.
  intros Hfind.
  exact (applyColumnUpdate_missing newColumn 0%nat
    {| new_all := all state; new_lookup := lookup state; shared := true;
       state_all := all state; state_minus_one := None;
       state_lookup := lookup state |} Hfind).
Qed.

Lemma getColumnIndex_not_visible (h : hook) (fld : string) :
  (∀ c, c ∈ visible (stateRef h) → field c ≠ VStr fld) →
  getColumnIndex fld h = -1 ∧ getColumnPosition fld h = None.
Proof.
  intros Hnone.
  destruct (getColumnIndex_cases h fld) as [(_ & H1 & H2) | (i & c & Hi & Hf & _)]; [done|].
  destruct (Hnone c (list_elem_of_lookup_2 _ _ _ Hi) Hf).
Qed.

(** X14. Hiding a column makes it disappear from the accessors: after
    [updateColumn] with a patch that names a field and has a truthy [hide],
    on columns with pairwise distinct keys, no visible column has that
    field, [getColumnIndex] returns -1 for it and [getColumnPosition]
    returns [undefined]. *)
Theorem hiding_removes_index (apiRef : option GridApi) (h : hook) (col : ColDef)
    (fld : string) :
  field col = VStr fld →
  truthy (hide col) = true →
  NoDup (keyOf <$> all (stateRef h)) →
  let h' := updateColumn apiRef col h in
  (∀ c, c ∈ getVisibleColumns h' → field c ≠ VStr fld)
  ∧ getColumnIndex fld h' = -1
  ∧ getColumnPosition fld h' = None.
Proof.
  intros Hf Hh Hnd h'.
  assert (∀ c, c ∈ getVisibleColumns h' → field c ≠ VStr fld) as Hvis.
  { intros c Hc Hfc.
    change (c ∈ visible (getUpdatedColumnState (stateRef h) [col])) in Hc.
    rewrite (proj1 (getUpdatedColumnState_derived (stateRef h) [col])) in Hc.
    rewrite filterVisible_shown in Hc. apply list_elem_of_filter in Hc as [Hs Hc].
    destruct Hs as (_ & _ & Hs).
    assert (∃ v, col !! "hide" = Some v) as [v Hv].
    { unfold hide, get in Hh. destruct (col !! "hide") as [v|]; [by exists v | done]. }
    destruct (list_find (λ c, Is_true (strict_eq (field c) (field col))) (all (stateRef h)))
      as [[r a]|] eqn:Hfind.
    - destruct (getUpdatedColumnState_single_found _ _ _ _ Hfind) as [Ha _].
      rewrite Ha in Hc. apply list_find_Some in Hfind as (Hr & Hfa & _).
      apply strict_eq_true in Hfa.
      apply list_elem_of_lookup in Hc as [i Hi].
      destruct (decide (i = r)) as [->|Hne].
      + rewrite list_lookup_insert_eq in Hi by (by eapply lookup_lt_Some).
        injection Hi as <-. unfold hide, get in Hs, Hh.
        rewrite (get_spread_explicit _ _ _ _ Hv) in Hs. rewrite Hv in Hh. congruence.
      + rewrite list_lookup_insert_ne in Hi by done.
        assert ((keyOf <$> all (stateRef h)) !! i = Some fld) as H1.
        { rewrite list_lookup_fmap, Hi. simpl. unfold keyOf. by rewrite Hfc. }
        assert ((keyOf <$> all (stateRef h)) !! r = Some fld) as H2.
        { rewrite list_lookup_fmap, Hr. simpl. unfold keyOf. by rewrite Hfa, Hf. }
        by pose proof (NoDup_lookup _ _ _ _ Hnd H1 H2).
    - destruct (getUpdatedColumnState_single_missing _ _ Hfind) as [Ha _].
      rewrite Ha in Hc. eapply list_find_None in Hfind. rewrite Forall_forall in Hfind.
      apply (Hfind c Hc). apply strict_eq_true. congruence. }
  split; [exact Hvis|]. by apply getColumnIndex_not_visible.
Qed.

Lemma hiding_removes_index_witness :
  getColumnIndex "a" hookABC = 0
  ∧ getColumnIndex "a" (updateColumn None hideA hookABC) = -1
  ∧ getColumnPosition "a" (updateColumn None hideA hookABC) = None.
Proof.
  split; [by vm_compute|].
  apply (hiding_removes_index None hookABC hideA "a").
  - by vm_compute.
  - by vm_compute.
  - apply (bool_decide_unpack (NoDup (keyOf <$> all (stateRef hookABC)))). by vm_compute.
Defined.

(** ** The flags of the state *)

Lemma has_visible_iff cols :
  bool_decide (0 < length (filterVisible cols))%nat = true ↔ ∃ c, c ∈ cols ∧ shown c.
Proof.
  rewrite bool_decide_eq_true, filterVisible_shown. split.
  - intros H. destruct (filter shown cols) as [|c rest] eqn:E; [simpl in H; lia|].
    assert (c ∈ filter shown cols) as Hc by (rewrite E; left).
    apply list_elem_of_filter in Hc as [Hs Hc]. by exists c.
  - intros (c & Hc & Hs).
    assert (c ∈ filter shown cols) as Hin by (by apply list_elem_of_filter).
    destruct (filter shown cols); [by apply elem_of_nil in Hin | simpl; lia].
Qed.

(** X15. The two flags say what they are named for. After [resetState],
    [hasColumns] holds exactly when the input list is not empty or checkbox
    selection is on; after [resetState] and after a patch update alike,
    [hasVisibleColumns] holds exactly when some column of the full
    collection is identified and not hidden, and then [hasColumns] holds
    too. *)
Theorem state_flags (getColDef : val → ColDef) (checkboxObj : ColDef)
    (columns : list ColDef) (options : GridOptions) (apiRef : option GridApi)
    (state : InternalColumns) (columnUpdates : list ColDef) :
  let fresh := resetState getColDef checkboxObj columns options apiRef in
  let patched := getUpdatedColumnState state columnUpdates in
  (hasColumns fresh = true ↔ columns ≠ [] ∨ checkboxSelection options = true)
  ∧ (hasVisibleColumns fresh = true ↔ ∃ c, c ∈ all fresh ∧ shown c)
  ∧ (hasVisibleColumns fresh = true → hasColumns fresh = true)
  ∧ (hasVisibleColumns patched = true ↔ ∃ c, c ∈ all patched ∧ shown c)
  ∧ (hasVisibleColumns patched = true → hasColumns patched = true).
Proof.
  intros fresh patched.
  assert (∀ cols : list ColDef, (∃ c, c ∈ cols ∧ shown c) →
            bool_decide (0 < length cols)%nat = true) as Hne.
  { intros cols (c & Hc & _). apply bool_decide_eq_true.
    destruct cols; [by apply elem_of_nil in Hc | simpl; lia]. }
  split_and!.
  - unfold fresh, resetState. cbn [hasColumns]. rewrite bool_decide_eq_true.
    destruct (hydrateColumns_keeps getColDef checkboxObj columns options apiRef) as [-> _].
    rewrite mapColumns_eq, length_app, length_map.
    destruct (checkboxSelection options), columns; simpl; split; intros H;
      try lia; try (by left); try (by right); destruct H; done.
  - apply has_visible_iff.
  - intros H. apply Hne. by apply has_visible_iff.
  - apply has_visible_iff.
  - intros H. apply Hne. by apply has_visible_iff.
Qed.

Lemma state_flags_witness :
  hasColumns (resetState sampleColDef checkboxColumn [] checkboxOff None) = false
  ∧ hasColumns (resetState sampleColDef checkboxColumn [] checkboxOn None) = true
  ∧ hasColumns (getUpdatedColumnState stateABC [hideA]) = true.
Proof.
  destruct (state_flags sampleColDef checkboxColumn [] checkboxOn None stateABC [hideA])
    as (Hon & _ & _ & Hvis & Himp).
  split; [done|]. split.
  - apply Hon. by right.
  - apply Himp, Hvis. exists (spread (sampleColDef VUndefined) colC). split; [|by vm_compute].
    apply list_elem_of_lookup. by exists 2%nat.
Defined.

(** ** The layout does not depend on the sort model *)

Lemma toMeta_step_widths (l1 : list ColDef) : ∀ (l2 : list ColDef) acc,
  width <$> l1 = width <$> l2 →
  fold_left toMeta_step l1 acc = fold_left toMeta_step l2 acc.
Proof.
  induction l1 as [|c l1 IH]; intros [|d l2] acc H; try done.
  simpl in H. injection H as Hw H. simpl.
  unfold toMeta_step at 2 4. destruct acc as [t ps]. rewrite Hw. by apply IH.
Qed.

Lemma toMeta_widths (l1 l2 : list ColDef) :
  width <$> l1 = width <$> l2 → toMeta l1 = toMeta l2.
Proof. intros H. unfold toMeta. by rewrite (toMeta_step_widths l1 l2). Qed.

Lemma width_keys (c c' : ColDef) : c' !! "width" = c !! "width" → width c' = width c.
Proof. intros H. unfold width, get. by rewrite H. Qed.

Lemma field_keys (c c' : ColDef) : c' !! "field" = c !! "field" → field c' = field c.
Proof. intros H. unfold field, get. by rewrite H. Qed.

(** Two lists that agree, position by position, on every key but the sort
    keys have the same fields, and their visible columns have the same
    fields and widths. *)
Lemma filterVisible_layout (out : list ColDef) : ∀ mapped : list ColDef,
  length out = length mapped →
  (∀ j c, mapped !! j = Some c →
     ∃ c', out !! j = Some c'
       ∧ ∀ k, k ≠ "sortDirection" → k ≠ "sortIndex" → c' !! k = c !! k) →
  field <$> out = field <$> mapped
  ∧ field <$> filterVisible out = field <$> filterVisible mapped
  ∧ width <$> filterVisible out = width <$> filterVisible mapped.
Proof.
  unfold filterVisible.
  induction out as [|c' out IH]; intros [|c mapped] Hlen Hpt; try done.
  destruct (Hpt 0%nat c eq_refl) as (c'' & [= <-] & Hk).
  destruct (IH mapped) as (H1 & H2 & H3).
  { simpl in Hlen. lia. }
  { intros j x Hx. apply (Hpt (S j) x Hx). }
  assert (field c' = field c) as Hf by (apply field_keys; by apply Hk).
  assert (width c' = width c) as Hw by (apply width_keys; by apply Hk).
  assert (isVisible c' = isVisible c) as Hv by (apply isVisible_keys; by apply Hk).
  rewrite !filter_cons, Hv. split; [by rewrite !fmap_cons, Hf, H1|].
  destruct (decide (Is_true (isVisible c))); [|done].
  by rewrite !fmap_cons, Hf, Hw, H2, H3.
Qed.

Lemma toLookup_is_Some cols k : is_Some (toLookup cols !! k) ↔ k ∈ keyOf <$> cols.
Proof.
  rewrite <- not_eq_None_Some, toLookup_None. split.
  - intros H. destruct (decide (k ∈ keyOf <$> cols)) as [|Hn]; [done|].
    destruct H. intros c Hc <-. apply Hn. by apply list_elem_of_fmap_2.
  - intros H Hn. apply list_elem_of_fmap in H as (c & -> & Hc). by apply (Hn c).
Qed.

(** X16. The host handle and its sort model change nothing in the layout:
    for the same columns and options, the state computed with any
    [apiRef.current] has the same metadata, the same field identifiers in
    the full and in the visible collection, the same flags and the same
    keys in its lookup as the state computed without one. *)
Theorem layout_ignores_sort_model (getColDef : val → ColDef) (checkboxObj : ColDef)
    (columns : list ColDef) (options : GridOptions) (apiRef : option GridApi) :
  let state := resetState getColDef checkboxObj columns options apiRef in
  let plain := resetState getColDef checkboxObj columns options None in
  meta state = meta plain
  ∧ field <$> all state = field <$> all plain
  ∧ field <$> visible state = field <$> visible plain
  ∧ hasColumns state = hasColumns plain
  ∧ hasVisibleColumns state = hasVisibleColumns plain
  ∧ ∀ k, is_Some (lookup state !! k) ↔ is_Some (lookup plain !! k).
Proof.
  intros state plain.
  destruct (hydrateColumns_keeps getColDef checkboxObj columns options apiRef) as [Hlen Hkeep].
  destruct (filterVisible_layout _ _ Hlen Hkeep) as (Hf & Hvf & Hvw).
  unfold state, plain, resetState. cbn [meta all visible hasColumns hasVisibleColumns lookup].
  rewrite hydrateColumns_None.
  split_and!.
  - by apply toMeta_widths.
  - exact Hf.
  - exact Hvf.
  - by rewrite Hlen.
  - by rewrite <- (length_fmap field (filterVisible _)), Hvf, length_fmap.
  - intros k. rewrite !toLookup_is_Some. by rewrite (keyOf_fields _ _ Hf).
Qed.

(** ** The checkbox column object *)

Lemma firstAt_head (c : ColDef) rest : firstAt (c :: rest) 0 c = true.
Proof.
  apply Is_true_eq_true. apply (firstAt_firstOfField (c :: rest) 0 c eq_refl).
  intros j' c' Hlt. lia.
Qed.

(** X17. [hydrateColumns] puts the module-level checkbox column object
    itself in the list it then annotates. What a call leaves in that object
    differs from what it found in the two sort keys at most, and not at all
    when the checkbox option is off or there is no host handle; but when
    the option is on and the sort model of the handle names the field of
    that object, the call writes into it the sort direction of the last
    such entry and the sort index that goes with it. *)
Theorem checkbox_object_written (getColDef : val → ColDef) (checkboxObj : ColDef)
    (columns : list ColDef) (options : GridOptions) (apiRef : option GridApi) :
  let after := checkboxAfterHydrate getColDef checkboxObj columns options apiRef in
  (∀ k, k ≠ "sortDirection" → k ≠ "sortIndex" → after !! k = checkboxObj !! k)
  ∧ (checkboxSelection options = false → after = checkboxObj)
  ∧ (apiRef = None → after = checkboxObj)
  ∧ ∀ api model idx e,
      checkboxSelection options = true →
      apiRef = Some api →
      getSortModel api = Some model →
      lastEntryFor model idx e checkboxObj →
      sortDirection after = sort e
      ∧ sortIndex after = if bool_decide (1 < length model)%nat
                          then VNum (Z.of_nat idx + 1) else VUndefined.
Proof.
  intros after. unfold after, checkboxAfterHydrate.
  destruct (hydrateColumns_keeps getColDef checkboxObj columns options apiRef) as [_ Hkeep].
  split_and!.
  - intros k H1 H2. destruct (checkboxSelection options) eqn:Hcb; [|done].
    destruct (Hkeep 0%nat checkboxObj) as (c0 & Hc0 & Hk).
    { by rewrite mapColumns_eq, Hcb. }
    rewrite head_lookup, Hc0. simpl. by apply Hk.
  - by intros ->.
  - intros ->. rewrite hydrateColumns_None, mapColumns_eq.
    by destruct (checkboxSelection options).
  - intros api model idx e Hcb -> Hm Hlast. rewrite Hcb.
    rewrite head_lookup, hydrateColumns_lookup, Hm.
    set (mapped := mapColumns getColDef checkboxObj columns options).
    assert (mapped = checkboxObj :: map (λ c, spread (getColDef (get c "type")) c) columns)
      as Emap.
    { unfold mapped. by rewrite mapColumns_eq, Hcb. }
    assert (firstAt mapped 0 checkboxObj = true) as Hfirst
      by (rewrite Emap; apply firstAt_head).
    assert (mapped !! 0%nat = Some checkboxObj) as -> by (by rewrite Emap).
    cbn [fmap option_fmap option_map default]. rewrite Hfirst.
    assert (lastEntryFor model idx e (indexed mapped 0 checkboxObj)) as Hlast'.
    { destruct Hlast as (H1 & H2 & H3). split_and!; [done | by rewrite field_indexed |].
      intros idx' e' Hlt He'. rewrite field_indexed. by eapply H3. }
    exact (annotate_last (length model) model 0 idx e _ Hlast').
Qed.

Lemma checkbox_object_written_witness :
  let after := checkboxAfterHydrate sampleColDef checkboxColumn [colA] checkboxOn
                 (Some apiSortCheck) in
  sortDirection checkboxColumn = VUndefined
  ∧ sortDirection after = VStr "asc"
  ∧ after !! "width" = Some (VNum 80).
Proof.
  intros after.
  destruct (checkbox_object_written sampleColDef checkboxColumn [colA] checkboxOn
              (Some apiSortCheck)) as (Hk & _ & _ & Hw).
  split; [done|]. split.
  - apply (Hw apiSortCheck _ 0%nat {| colId := "__check__"; sort := VStr "asc" |}
             eq_refl eq_refl eq_refl).
    split_and!; [done | done |]. intros idx' e' Hlt He'.
    destruct idx' as [|idx']; [lia | done].
  - fold after in Hk. by rewrite Hk.
Defined.

(** ** The sort indexes hydration assigns *)

Lemma sortedBefore_step cols j (c : ColDef) :
  cols !! j = Some c → sorted c = true →
  sortedBefore cols (S j) = S (sortedBefore cols j).
Proof.
  intros Hj Hs. unfold sortedBefore. rewrite (take_S_r _ _ _ Hj), filter_app, length_app.
  rewrite filter_cons, decide_True by (by rewrite Hs). simpl. lia.
Qed.

Lemma sortedBefore_mono cols j j' : (j ≤ j')%nat → (sortedBefore cols j ≤ sortedBefore cols j')%nat.
Proof.
  intros Hle. unfold sortedBefore.
  rewrite <- (take_drop j (take j' cols)), take_take, Nat.min_l by lia.
  rewrite filter_app, length_app. lia.
Qed.

Lemma hydrateColumns_unmatched getColDef checkboxObj columns options api j (c : ColDef) :
  mapColumns getColDef checkboxObj columns options !! j = Some c →
  (∀ model, getSortModel api = Some model → unmatched model c) →
  hydrateColumns getColDef checkboxObj columns options (Some api) !! j
  = Some (indexed (mapColumns getColDef checkboxObj columns options) j c).
Proof.
  intros Hj Hu. rewrite hydrateColumns_lookup, Hj. simpl. f_equal.
  destruct (getSortModel api) as [model|]; [|done].
  destruct (firstAt _ j c); [|done].
  apply annotate_unmatched. intros e He. rewrite field_indexed. by apply (Hu model).
Qed.

(** X18. The sort indexes that hydration hands out follow the order of the
    columns. With the host handle set, take two columns that carry a sort
    direction and no sort index and that the sort model of the handle, if
    any, does not name: both get a number as sort index, the earlier column
    a smaller one, from 1 and at most the number of columns carrying a sort
    direction. *)
Theorem assigned_sort_indexes_increase (getColDef : val → ColDef) (checkboxObj : ColDef)
    (columns : list ColDef) (options : GridOptions) (api : GridApi)
    (j j' : nat) (c c' : ColDef) :
  let mapped := mapColumns getColDef checkboxObj columns options in
  let out := hydrateColumns getColDef checkboxObj columns options (Some api) in
  mapped !! j = Some c → mapped !! j' = Some c' → (j < j')%nat →
  sorted c = true → is_nullish (sortIndex c) = true →
  sorted c' = true → is_nullish (sortIndex c') = true →
  (∀ model, getSortModel api = Some model → unmatched model c ∧ unmatched model c') →
  ∃ (a b : Z) (d d' : ColDef),
    out !! j = Some d ∧ out !! j' = Some d'
    ∧ sortIndex d = VNum a ∧ sortIndex d' = VNum b
    ∧ 1 ≤ a ∧ a < b
    ∧ b ≤ Z.of_nat (length (filter (λ x, Is_true (sorted x)) mapped)).
Proof.
  intros mapped out Hj Hj' Hlt Hs Hn Hs' Hn' Hu.
  exists (Z.of_nat (sortedBefore mapped j) + 1), (Z.of_nat (sortedBefore mapped j') + 1),
         (indexed mapped j c), (indexed mapped j' c').
  split; [apply hydrateColumns_unmatched; [done | intros m Hm; by apply (Hu m)]|].
  split; [apply hydrateColumns_unmatched; [done | intros m Hm; by apply (Hu m)]|].
  unfold indexed. rewrite Hs, Hn, Hs', Hn'. simpl.
  unfold sortIndex. rewrite !get_assign_eq.
  split; [done|]. split; [done|].
  pose proof (sortedBefore_step mapped j c Hj Hs) as H1.
  pose proof (sortedBefore_mono mapped (S j) j' ltac:(lia)) as H2.
  pose proof (sortedBefore_step mapped j' c' Hj' Hs') as H3.
  assert (sortedBefore mapped (S j') ≤ length (filter (λ x, Is_true (sorted x)) mapped))%nat
    as H4.
  { unfold sortedBefore. rewrite <- (take_drop (S j') mapped) at 2.
    rewrite filter_app, length_app. lia. }
  lia.
Qed.

Lemma assigned_sort_indexes_increase_witness :
  let out := hydrateColumns sampleColDef checkboxColumn [sortedA; colC; sortedB] checkboxOff
               (Some apiNoModel) in
  ∃ (a b : Z) (d d' : ColDef),
    out !! 0%nat = Some d ∧ out !! 2%nat = Some d'
    ∧ sortIndex d = VNum a ∧ sortIndex d' = VNum b ∧ 1 ≤ a ∧ a < b ∧ b ≤ 2.
Proof.
  intros out.
  destruct (assigned_sort_indexes_increase sampleColDef checkboxColumn
              [sortedA; colC; sortedB] checkboxOff apiNoModel 0 2
              (spread (sampleColDef VUndefined) sortedA)
              (spread (sampleColDef VUndefined) sortedB))
    as (a & b & d & d' & H1 & H2 & H3 & H4 & H5 & H6 & H7); try done; try lia.
  exists a, b, d, d'. by split_and!.
Defined.

(** ** Patches that carry no [hide] and no [width] *)

Lemma filterVisible_same_layout (out : list ColDef) : ∀ mapped : list ColDef,
  length out = length mapped →
  (∀ j c, mapped !! j = Some c →
     ∃ c', out !! j = Some c'
       ∧ field c' = field c ∧ hide c' = hide c ∧ width c' = width c) →
  field <$> filterVisible out = field <$> filterVisible mapped
  ∧ width <$> filterVisible out = width <$> filterVisible mapped.
Proof.
  unfold filterVisible.
  induction out as [|c' out IH]; intros [|c mapped] Hlen Hpt; try done.
  destruct (Hpt 0%nat c eq_refl) as (c'' & [= <-] & Hf & Hh & Hw).
  destruct (IH mapped) as (H2 & H3).
  { simpl in Hlen. lia. }
  { intros j x Hx. apply (Hpt (S j) x Hx). }
  assert (isVisible c' = isVisible c) as Hv by (unfold isVisible; by rewrite Hf, Hh).
  rewrite !filter_cons, Hv.
  destruct (decide (Is_true (isVisible c))); [|done].
  by rewrite !fmap_cons, Hf, Hw, H2, H3.
Qed.

Lemma getUpdatedColumnState_same_layout state columnUpdates :
  (∀ p : ColDef, p ∈ columnUpdates → p !! "hide" = None ∧ p !! "width" = None) →
  field <$> visible (getUpdatedColumnState state columnUpdates)
  = field <$> filterVisible (all state)
  ∧ meta (getUpdatedColumnState state columnUpdates) = toMeta (filterVisible (all state)).
Proof.
  intros Hups.
  destruct (getUpdatedColumnState_derived state columnUpdates) as [Hv Hm].
  pose proof (runColumnUpdates_fields state columnUpdates) as Hf.
  destruct (filterVisible_same_layout (all (getUpdatedColumnState state columnUpdates))
              (all state)) as [H1 H2].
  { rewrite <- (length_fmap field), <- (length_fmap field (all state)).
    unfold getUpdatedColumnState. cbn [all]. by rewrite Hf. }
  { intros j c Hj.
    destruct (runColumnUpdates_other_keys state columnUpdates j c "hide" Hj) as (c1 & Hc1 & Hh).
    { apply Forall_forall. intros p Hp. by apply Hups. }
    destruct (runColumnUpdates_other_keys state columnUpdates j c "width" Hj) as (c2 & Hc2 & Hw).
    { apply Forall_forall. intros p Hp. by apply Hups. }
    rewrite Hc1 in Hc2. injection Hc2 as <-.
    exists c1. split; [exact Hc1|]. split_and!.
    - assert ((field <$> new_all (runColumnUpdates state columnUpdates)) !! j
              = (field <$> all state) !! j) as Hfj by (by rewrite Hf).
      rewrite !list_lookup_fmap, Hc1, Hj in Hfj. simpl in Hfj. by injection Hfj.
    - unfold hide, get. by rewrite Hh.
    - by apply width_keys. }
  split; [by rewrite Hv|]. rewrite Hm, Hv. by apply toMeta_widths.
Qed.

(** X20. Patches that carry neither [hide] nor [width] leave the layout
    alone: the visible columns of the state returned have, in order, the
    field identifiers of the visible columns of the collection it started
    from, and the metadata is that of those columns. *)
Theorem patches_keep_layout (state : InternalColumns) (columnUpdates : list ColDef) :
  (∀ p : ColDef, p ∈ columnUpdates → p !! "hide" = None ∧ p !! "width" = None) →
  let newState := getUpdatedColumnState state columnUpdates in
  field <$> visible newState = field <$> filterVisible (all state)
  ∧ meta newState = toMeta (filterVisible (all state)).
Proof. intros Hups newState. by apply getUpdatedColumnState_same_layout. Qed.

Lemma patches_keep_layout_witness :
  meta (getUpdatedColumnState stateABC [clearPatch "a"; clearPatch "z"]) = meta stateABC.
Proof.
  destruct (patches_keep_layout stateABC [clearPatch "a"; clearPatch "z"]) as [_ Hm].
  - intros p Hp. apply list_elem_of_lookup in Hp as [i Hi].
    destruct i as [|[|i]]; simpl in Hi; try discriminate; by injection Hi as <-.
  - exact Hm.
Defined.

(** X21. Sorting never changes the layout. Whatever the sort model and the
    fields remembered, when the state in [stateRef] has its visible columns
    and metadata derived from its full collection, the state the reaction
    leaves there has the same metadata and, in order, the same visible
    field identifiers, and the same full field identifiers. *)
Theorem reaction_keeps_layout (apiRef : option GridApi) (sortModel : SortModel) (h : hook) :
  visible (stateRef h) = filterVisible (all (stateRef h)) →
  meta (stateRef h) = toMeta (visible (stateRef h)) →
  let h' := onSortedColumns apiRef sortModel h in
  getColumnsMeta h' = getColumnsMeta h
  ∧ field <$> getVisibleColumns h' = field <$> getVisibleColumns h
  ∧ field <$> getAllColumns h' = field <$> getAllColumns h.
Proof.
  intros Hv Hm h'. unfold getColumnsMeta, getVisibleColumns, getAllColumns.
  destruct (onSortedColumns_effect apiRef sortModel h) as (_ & Hs & _). fold h' in Hs.
  rewrite Hs. destruct (bool_decide _); [|done].
  set (patches := (clearPatch <$> sortedColFieldsRef h)
                  ++ imap (setPatch (length sortModel)) sortModel).
  destruct (getUpdatedColumnState_same_layout (stateRef h) patches) as [H1 H2].
  { intros p Hp. apply elem_of_app in Hp as [Hp|Hp].
    - by apply list_elem_of_fmap in Hp as (f & -> & _).
    - apply list_elem_of_lookup in Hp as [i Hi]. rewrite list_lookup_imap in Hi.
      destruct (sortModel !! i) as [e|]; [|done]. simpl in Hi. by injection Hi as <-. }
  split_and!.
  - by rewrite H2, Hm, Hv.
  - by rewrite H1, Hv.
  - apply runColumnUpdates_fields.
Qed.

Lemma reaction_keeps_layout_witness :
  getColumnsMeta (onSortedColumns None sortAC hookABC) = getColumnsMeta hookABC
  ∧ field <$> getVisibleColumns (onSortedColumns None sortAC hookABC)
    = field <$> getVisibleColumns hookABC.
Proof.
  destruct (reaction_keeps_layout None sortAC hookABC eq_refl eq_refl) as (H1 & H2 & _).
  split; [exact H1 | exact H2].
Defined.

Lemma layout_ignores_sort_model_witness :
  meta (resetState sampleColDef checkboxColumn [colA; sortedB] checkboxOn (Some apiSortA))
  = meta (resetState sampleColDef checkboxColumn [colA; sortedB] checkboxOn None)
  ∧ (is_Some (lookup (resetState sampleColDef checkboxColumn [colA; sortedB] checkboxOn None)
               !! "b") →
     is_Some (lookup (resetState sampleColDef checkboxColumn [colA; sortedB] checkboxOn
                        (Some apiSortA)) !! "b")).
Proof.
  destruct (layout_ignores_sort_model sampleColDef checkboxColumn [colA; sortedB] checkboxOn
              (Some apiSortA)) as (Hm & _ & _ & _ & _ & Hk).
  split; [exact Hm | apply Hk].
Defined.

(** ** What the events leave in the refs *)

Lemma step_refs getColDef h e :
  rafUpdates (step getColDef h e)
  = (if isPostSort e then S (rafUpdates h) else rafUpdates h)
  ∧ sortedColFieldsRef (step getColDef h e)
    = match e with
      | PostSort _ sortModel => colId <$> sortModel
      | _ => sortedColFieldsRef h
      end.
Proof.
  destruct e as [columns options apiRef | columns options apiRef | apiRef col
                 | apiRef cols | apiRef sortModel]; try done.
  simpl. destruct (onSortedColumns_effect apiRef sortModel h) as (Hf & _ & _ & Hr). done.
Qed.

(** X22. Only sort notifications ask for a re-render and only they touch the
    remembered fields: along any sequence of events, [rafUpdate] has been
    called once per notification, and the fields remembered at the end are
    those of the last sort model received, or, if none was, the ones
    remembered at the start; input changes and patches do not reset
    them. *)
Theorem refs_follow_sort_notifications (getColDef : val → ColDef) (es : list event)
    (h : hook) :
  rafUpdates (run getColDef h es)
  = (rafUpdates h + length (filter (λ e, Is_true (isPostSort e)) es))%nat
  ∧ sortedColFieldsRef (run getColDef h es)
    = match lastSortModel es with
      | Some sortModel => colId <$> sortModel
      | None => sortedColFieldsRef h
      end.
Proof.
  revert h. induction es as [|e es IH] using rev_ind; intros h.
  - simpl. split; [lia | done].
  - unfold run in *. rewrite fold_left_app. simpl.
    destruct (step_refs getColDef (fold_left (step getColDef) es h) e) as [Hr Hf].
    destruct (IH h) as [IHr IHf]. rewrite Hr, Hf, IHr, IHf.
    unfold lastSortModel. rewrite filter_app, length_app, filter_cons, filter_nil.
    destruct e as [columns options apiRef | columns options apiRef | apiRef col
                   | apiRef cols | apiRef sortModel]; simpl;
      rewrite ?app_nil_r, ?last_snoc; split; try lia; done.
Qed.

(** ** A sort annotation left in the checkbox column object *)

(** With the checkbox option on and the host handle set, the first column of
    the hydrated list is the checkbox column object, with its missing sort
    index filled in and then annotated by the sort model. *)
Lemma hydrateColumns_head getColDef checkboxObj columns api :
  head (hydrateColumns getColDef checkboxObj columns checkboxOn (Some api))
  = Some (let mapped := mapColumns getColDef checkboxObj columns checkboxOn in
          let c1 := indexed mapped 0 checkboxObj in
          match getSortModel api with
          | Some model => annotate (length model) model 0 c1
          | None => c1
          end).
Proof.
  rewrite head_lookup, hydrateColumns_lookup.
  assert (mapColumns getColDef checkboxObj columns checkboxOn
          = checkboxObj :: map (λ c, spread (getColDef (get c "type")) c) columns) as Emap.
  { by rewrite mapColumns_eq. }
  assert (mapColumns getColDef checkboxObj columns checkboxOn !! 0%nat = Some checkboxObj)
    as H0 by (by rewrite Emap).
  rewrite H0. cbn [fmap option_fmap option_map].
  destruct (getSortModel api) as [model|]; [|done].
  assert (firstAt (mapColumns getColDef checkboxObj columns checkboxOn) 0 checkboxObj = true)
    as -> by (rewrite Emap; apply firstAt_head).
  done.
Qed.

(** X23. A sort annotation of the checkbox column outlives the sort model
    that set it. [hydrateColumns] annotates the module-level checkbox column
    object itself, and nothing takes the annotation off that object again:
    once the object carries a sort direction, an input change with the
    checkbox option on commits and sends to the listeners a checkbox column
    with that sort direction and with a sort index (the one of the object,
    or 1), even though the sort model of the host is empty by then. *)
Theorem checkbox_annotation_outlives_sort_model (getColDef : val → ColDef)
    (h : hook) (columns : list ColDef) (api : GridApi) :
  is_nullish (sortDirection (checkboxSelectionColDef h)) = false →
  getSortModel api = Some [] →
  let g := checkboxSelectionColDef h in
  let h' := columnsEffect getColDef columns checkboxOn (Some api) h in
  ∃ c0, all (stateRef h') !! 0%nat = Some c0
    ∧ checkboxSelectionColDef h' = c0
    ∧ field c0 = field g
    ∧ sortDirection c0 = sortDirection g
    ∧ sortIndex c0 = (if is_nullish (sortIndex g) then VNum 1 else sortIndex g)
    ∧ emitted h' = emitted h ++ [all (stateRef h')].
Proof.
  intros Hdir Hm g h'.
  set (mapped := mapColumns getColDef g columns checkboxOn).
  assert (head (all (stateRef h')) = Some (indexed mapped 0 g)) as Hhead.
  { unfold h', columnsEffect. cbn [stateRef updateState setCheckbox checkboxSelectionColDef].
    unfold resetState. cbn [all]. by rewrite hydrateColumns_head, Hm. }
  assert (checkboxSelectionColDef h' = indexed mapped 0 g) as Hcb.
  { unfold h', columnsEffect, checkboxAfterHydrate.
    cbn [checkboxSelectionColDef updateState setCheckbox checkboxSelection checkboxOn].
    by rewrite hydrateColumns_head, Hm. }
  exists (indexed mapped 0 g).
  split; [by rewrite <- head_lookup|]. split; [exact Hcb|].
  split; [by rewrite field_indexed|].
  assert (sorted g = true) as Hs by (unfold sorted, g; by rewrite Hdir).
  split_and!; [| |done].
  - unfold sortDirection, get. by rewrite indexed_keeps.
  - unfold indexed. rewrite Hs. unfold sortedBefore. simpl.
    destruct (is_nullish (sortIndex g)); [|done].
    unfold sortIndex. by rewrite get_assign_eq.
Qed.

Lemma checkbox_annotation_outlives_sort_model_witness :
  let h := mount sampleColDef checkboxColumn [colA] checkboxOn (Some apiSortCheck) in
  let h' := columnsEffect sampleColDef [colA; colC] checkboxOn
              (Some {| getSortModel := Some [] |}) h in
  sortDirection checkboxColumn = VUndefined
  ∧ is_nullish (sortDirection (checkboxSelectionColDef h)) = false
  ∧ ∃ c0, all (stateRef h') !! 0%nat = Some c0
      ∧ field c0 = VStr "__check__"
      ∧ sortDirection c0 = VStr "asc"
      ∧ sortIndex c0 = VNum 1.
Proof.
  intros h h'. split; [done|]. split; [by vm_compute|].
  destruct (checkbox_annotation_outlives_sort_model sampleColDef h [colA; colC]
              {| getSortModel := Some [] |}) as (c0 & H0 & _ & Hf & Hd & Hi & _);
    [by vm_compute | done |].
  exists c0. split; [exact H0|]. rewrite Hf, Hd, Hi. by vm_compute.
Defined.
